(** * nginclaude: the routing-decision engine of [src/vercel-proxy.ts]

    A shallow embedding of the configuration loader, the rule-based
    matcher, the LLM routing middleware and the status route of
    [src/vercel-proxy.ts], with the middleware of [src/index.js] as a
    sibling module.

    Conventions.
    - A JavaScript string is a Rocq [string]; every character stands for
      one code unit in the range 0..255 (so U+00A0 is the character 160).
    - A JavaScript number returned by a comparator is a [Z].
    - What the program obtains from its runtime and its libraries (the
      file system, the inference SDK, the URL constructor, the proxy
      library) is an explicit argument of the definitions.
    - What a handler does is the list of its observable actions, in order:
      the calls it makes, the decisions it logs and the responses it sends. *)

From Stdlib Require Import String Ascii List ZArith Lia Bool Arith.
From Stdlib Require Import Permutation Sorted.
Import ListNotations.

Local Open Scope string_scope.
Local Open Scope list_scope.

(** * Part I: the program *)

(** ** Strings *)

Definition dquote : string := String (ascii_of_nat 34) "".
Definition newline : string := String (ascii_of_nat 10) "".

(** White space and line terminators, as [\s] and [String.prototype.trim]
    understand them, among the code units 0..255. *)
Definition isSpace (c : ascii) : bool :=
  let n := nat_of_ascii c in
  ((9 <=? n)%nat && (n <=? 13)%nat) || (n =? 32)%nat || (n =? 160)%nat.

Fixpoint takeWhile (p : ascii -> bool) (s : string) : string :=
  match s with
  | String c rest => if p c then String c (takeWhile p rest) else ""
  | "" => ""
  end.

Fixpoint dropWhile (p : ascii -> bool) (s : string) : string :=
  match s with
  | String c rest => if p c then dropWhile p rest else s
  | "" => ""
  end.

Fixpoint dropWhileEnd (p : ascii -> bool) (s : string) : string :=
  match s with
  | String c rest =>
      match dropWhileEnd p rest with
      | "" => if p c then "" else String c ""
      | kept => String c kept
      end
  | "" => ""
  end.

(** [s.trim()] *)
Definition trim (s : string) : string :=
  dropWhileEnd isSpace (dropWhile isSpace s).

(** [s] without the literal [lit] it starts with. *)
Fixpoint stripPrefix (lit s : string) : option string :=
  match lit, s with
  | "", _ => Some s
  | String a lit', String b s' =>
      if Ascii.eqb a b then stripPrefix lit' s' else None
  | String _ _, "" => None
  end.

(** [url.startsWith(prefix)] *)
Definition startsWith (url prefix : string) : bool := String.prefix prefix url.

(** ** Route configuration *)

(** [interface RouteConfig { path: string; target: string }] *)
Record RouteConfig : Type := mkRoute {
  path : string;
  target : string
}.

(** ** [Array.prototype.sort]

    The sort of the runtime (Node 18 or later, by [engines] in
    [package.json]) is stable, and its insertions and merges only ever ask
    whether a later element compares strictly below an earlier one,
    [comparefn(later, earlier) < 0].  The model is the insertion form of
    that discipline: the elements are inserted from left to right, each
    one in front of the first element it compares below.  For the
    comparator of the loader the outcome is the only stable arrangement
    in descending place ([sortRoutes_unique] below), whatever the method. *)

Section ArraySort.

Context {A : Type}.
Variable comparefn : A -> A -> Z.

Fixpoint insertSorted (pivot : A) (sorted : list A) : list A :=
  match sorted with
  | [] => [pivot]
  | e :: rest =>
      if (comparefn pivot e <? 0)%Z then pivot :: e :: rest
      else e :: insertSorted pivot rest
  end.

Definition arraySort (l : list A) : list A :=
  fold_left (fun sorted pivot => insertSorted pivot sorted) l [].

End ArraySort.

(** ** [parseNginxConfig] *)

(** The comparator of [routes.sort((a, b) => ...)]. *)
Definition compareRoutes (a b : RouteConfig) : Z :=
  if path a =? "/" then 1%Z
  else if path b =? "/" then (-1)%Z
  else (Z.of_nat (String.length (path b)) - Z.of_nat (String.length (path a)))%Z.

Definition sortRoutes (routes : list RouteConfig) : list RouteConfig :=
  arraySort compareRoutes routes.

(** The regular expression
    [/location\s+([^\s{]+)\s*{[^}]*proxy_pass\s+([^;]+);/g],
    piece by piece.  Each function answers what is left of the text after
    the piece, and the captured groups. *)

(** [[^\s{]] *)
Definition isPathChar (c : ascii) : bool :=
  negb (isSpace c) && negb (Ascii.eqb c "{").

(** [[^;]] *)
Definition notSemicolon (c : ascii) : bool := negb (Ascii.eqb c ";").

Fixpoint lastChar (s : string) : string :=
  match s with
  | String c "" => String c ""
  | String _ rest => lastChar rest
  | "" => ""
  end.

(** [\s+([^;]+);] after [proxy_pass]: the white space is taken greedily;
    when the semicolon follows it at once, [\s+] gives its last character
    back to the group. *)
Definition matchProxyPassArgument (s : string) : option (string * string) :=
  let spaces := takeWhile isSpace s in
  let s1 := dropWhile isSpace s in
  match spaces with
  | "" => None
  | _ =>
      match dropWhile notSemicolon s1 with
      | "" => None
      | String _ rest =>
          match takeWhile notSemicolon s1 with
          | "" => if (2 <=? String.length spaces)%nat
                  then Some (lastChar spaces, rest) else None
          | argument => Some (argument, rest)
          end
      end
  end.

(** [proxy_pass\s+([^;]+);] at the head of [s]. *)
Definition matchProxyPass (s : string) : option (string * string) :=
  match stripPrefix "proxy_pass" s with
  | Some s1 => matchProxyPassArgument s1
  | None => None
  end.

(** [[^}]*proxy_pass\s+([^;]+);]: the greedy [[^}]*] backs off from the
    first closing brace, so the last [proxy_pass] statement before it that
    matches is taken. *)
Fixpoint matchBlock (s : string) : option (string * string) :=
  match s with
  | String c rest =>
      let later := if Ascii.eqb c "}" then None else matchBlock rest in
      match later with
      | Some m => Some m
      | None => matchProxyPass s
      end
  | "" => None
  end.

(** One match of the whole expression at the head of [s]: groups 1 and 2
    and the text after the match. *)
Definition matchLocation (s : string) : option (string * string * string) :=
  match stripPrefix "location" s with
  | None => None
  | Some s1 =>
      match takeWhile isSpace s1 with
      | "" => None
      | _ =>
          let s2 := dropWhile isSpace s1 in
          match takeWhile isPathChar s2 with
          | "" => None
          | group1 =>
              match dropWhile isSpace (dropWhile isPathChar s2) with
              | String "{" s3 =>
                  match matchBlock s3 with
                  | Some (group2, rest) => Some (group1, group2, rest)
                  | None => None
                  end
              | _ => None
              end
          end
      end
  end.

(** The [while ((match = locationRegex.exec(configContent)) !== null)]
    loop.  [skip] counts the characters of the last match that are still
    to be passed: the search resumes where the match ended. *)
Fixpoint execLocations (skip : nat) (configContent : string)
  : list RouteConfig :=
  match configContent with
  | "" => []
  | String _ rest =>
      match skip with
      | S k => execLocations k rest
      | O =>
          match matchLocation configContent with
          | Some (group1, group2, after) =>
              {| path := group1; target := trim group2 |}
                :: execLocations (String.length rest - String.length after) rest
          | None => execLocations 0 rest
          end
      end
  end.

(** [fs.readFileSync(configPath, 'utf8')] answers the content of the file
    or throws ([None]). *)
Definition parseNginxConfig (readFileSync : string -> option string)
  (configPath : string) : list RouteConfig :=
  match readFileSync configPath with
  | Some configContent => sortRoutes (execLocations 0 configContent)
  | None => []
  end.

(** ** What the handlers receive and what they do *)

(** The request, as far as the handlers read it: [req.method], [req.url],
    and the texts [JSON.stringify(req.headers)] and
    [JSON.stringify(req.body)]. *)
Record Request : Type := {
  method : string;
  url : string;
  headers : string;
  body : string
}.

(** The fields read from the object that [new URL(text)] builds. *)
Record URL : Type := {
  protocol : string;
  host : string;
  pathname : string;
  search : string
}.

(** How an awaited promise ends: with a value, with an exception, or not
    at all. *)
Inductive Promise (A : Type) : Type :=
| Fulfilled (value : A)
| Rejected
| Pending.
Arguments Fulfilled {A} value.
Arguments Rejected {A}.
Arguments Pending {A}.

(** The object handed to [generateText]: a model and a prompt, nothing
    else. *)
Record GenerateTextOptions : Type := {
  model : string;
  prompt : string
}.

(** What becomes of [createProxyMiddleware(options)] applied to the
    request.  The library takes the requests whose path starts with its
    context, [/] when none is given; another request (the url [*], say)
    is not forwarded: the library calls [next()] and leaves the request to
    the framework. *)
Inductive ProxyResult : Type :=
| ProxyThrows      (* building or calling the middleware throws *)
| ProxyPassThrough (* the library does not take the request and calls next() *)
| ProxyError       (* the upstream is not reached: refused, reset, timed out *)
| ProxyResponse.   (* the upstream answers and its response is piped back *)

(** The runtime of one request. *)
Record Runtime : Type := {
  (** [new URL(text)]; [None] when it throws *)
  newURL : string -> option URL;
  (** [await generateText({ model, prompt })] *)
  generateText : GenerateTextOptions -> Promise string;
  (** the proxy to [target], asked for [path] *)
  proxy : string -> string -> ProxyResult
}.

Module Status.
(** The object of [res.json({ status, sdk, config, routes })]. *)
Record t : Type := {
  status : string;
  sdk : string;
  config : string;
  routes : list string
}.
End Status.

Inductive Event : Type :=
| Next                                        (* next() *)
| GenerateText (options : GenerateTextOptions) (* the inference call *)
| InferenceTarget (target pathname : string)  (* "Target host: .., Path: .." *)
| RuleBasedFallback                           (* "Using rule-based fallback routing ..." *)
| NoMatch (url : string)                      (* "No matching route found for: .." *)
| FallbackTarget (target url : string)        (* "Fallback routing to: .." *)
| Proxy (target path : string)                (* the request is sent to target, for path *)
| DefaultProxyError                           (* no onError: the proxy library answers itself *)
| Send (code : nat) (text : string)           (* res.status(code).send(text) *)
| Json (value : Status.t).                    (* res.json(value) *)

(** ** [useRuleBasedFallback] *)

Fixpoint findFallbackTarget (routes : list RouteConfig) (url : string)
  : option string :=
  match routes with
  | [] => None
  | route :: rest =>
      if startsWith url (path route) then Some (target route)
      else findFallbackTarget rest url
  end.

(** [!fallbackTarget]: [null] and the empty string are falsy. *)
Definition falsy (v : option string) : bool :=
  match v with
  | Some (String _ _) => false
  | _ => true
  end.

Definition useRuleBasedFallback (rt : Runtime) (routes : list RouteConfig)
  (url : string) : list Event :=
  RuleBasedFallback ::
  let fallbackTarget := findFallbackTarget routes url in
  if falsy fallbackTarget then [NoMatch url; Send 404 "No matching route found"]
  else
    match fallbackTarget with
    | None => []
    | Some fallbackTarget =>
        FallbackTarget fallbackTarget url ::
        match proxy rt fallbackTarget url with
        | ProxyThrows => [Send 500 "Proxy error"]
        | ProxyPassThrough => [Next]
        | ProxyError => [Proxy fallbackTarget url; DefaultProxyError]
        | ProxyResponse => [Proxy fallbackTarget url]
        end
    end.

(** ** The LLM routing middleware *)

Definition routingRules (routes : list RouteConfig) : string :=
  fold_left
    (fun rules route =>
       (rules ++ "- If the URL starts with " ++ dquote ++ path route ++ dquote
        ++ ", route to " ++ target route ++ " and maintain the same path"
        ++ newline)%string)
    routes "".

Definition buildPrompt (routes : list RouteConfig) (req : Request) : string :=
  (newline
  ++ "You are a reverse proxy server similar to nginx. Your job is to analyze this incoming request and determine where it should be routed." ++ newline
  ++ "Based on the routing rules from the nginv-proxy.conf file, you must decide which backend service should handle this request." ++ newline
  ++ newline
  ++ "Request:" ++ newline
  ++ "- Method: " ++ method req ++ newline
  ++ "- URL: " ++ url req ++ newline
  ++ "- Headers: " ++ headers req ++ newline
  ++ "- Body: " ++ body req ++ newline
  ++ newline
  ++ "Routing Rules from nginv-proxy.conf:" ++ newline
  ++ routingRules routes ++ newline
  ++ newline
  ++ "Your response must be ONLY a single line containing the full target URL. For example:" ++ newline
  ++ "http://localhost:8001/api/users" ++ newline
  ++ newline
  ++ "DO NOT include any explanation or additional text." ++ newline)%string.

Definition llmRoutingMiddleware (rt : Runtime) (routes : list RouteConfig)
  (req : Request) : list Event :=
  if url req =? "/proxy-status" then [Next]
  else
    let options :=
      {| model := "claude-3-haiku-20240307"; prompt := buildPrompt routes req |} in
    GenerateText options ::
    match generateText rt options with
    | Pending => []
    | Rejected => useRuleBasedFallback rt routes (url req)
    | Fulfilled targetUrl =>
        match newURL rt targetUrl with
        | None => useRuleBasedFallback rt routes (url req)
        | Some targetUrlObj =>
            let target := (protocol targetUrlObj ++ "//" ++ host targetUrlObj)%string in
            let pathname := pathname targetUrlObj in
            let rewritten := (pathname ++ search targetUrlObj)%string in
            InferenceTarget target pathname ::
            match proxy rt target rewritten with
            | ProxyThrows => useRuleBasedFallback rt routes (url req)
            | ProxyPassThrough => [Next]
            | ProxyError =>
                Proxy target rewritten :: useRuleBasedFallback rt routes (url req)
            | ProxyResponse => [Proxy target rewritten]
            end
        end
    end.

(** ** The status route and the application *)

(** The module-level constants [configPath] and [routes]. *)
Record Server : Type := {
  configPath : string;
  routes : list RouteConfig
}.

Definition startServer (readFileSync : string -> option string)
  (configPath : string) : Server :=
  {| configPath := configPath;
     routes := parseNginxConfig readFileSync configPath |}.

(** [app.get('/proxy-status', ...)] *)
Definition proxyStatus (srv : Server) : Status.t :=
  {| Status.status := "running";
     Status.sdk := "Vercel AI SDK with @ai-sdk/anthropic";
     Status.config := configPath srv;
     Status.routes :=
       map (fun route => (path route ++ " => " ++ target route)%string) (routes srv) |}.

(** The middleware, then the status route when the middleware itself
    calls [next()]: it does so for the url [/proxy-status] only, which the
    route answers to GET and HEAD and leaves to the framework otherwise.
    When it is a proxy that calls [next()], the path of the url does not
    start with [/]: the status route does not match it and the request is
    left to the framework. *)
Definition app (rt : Runtime) (srv : Server) (req : Request) : list Event :=
  match llmRoutingMiddleware rt (routes srv) req with
  | [Next] =>
      if (method req =? "GET") || (method req =? "HEAD")
      then [Json (proxyStatus srv)] else [Next]
  | events => events
  end.

(** The server over its lifetime: one runtime and one request after the
    other; no handler assigns to [routes]. *)
Fixpoint serve (srv : Server) (requests : list (Runtime * Request))
  : Server * list (list Event) :=
  match requests with
  | [] => (srv, [])
  | (rt, req) :: rest =>
      let events := app rt srv req in
      let (srv', others) := serve srv rest in
      (srv', events :: others)
  end.

(** ** The sibling: the middleware of [src/index.js]

    The first version of the proxy: the rules are written into the code
    and the text of the model is trimmed before it is parsed. *)

Module IndexJs.

(** [message.content]: the blocks of the answer, with their [text] when
    they have one. *)
Record Runtime : Type := {
  newURL : string -> option URL;
  (** [await anthropic.messages.create({ model, max_tokens, messages })] *)
  messagesCreate : string -> Promise (list (option string));
  proxy : string -> string -> ProxyResult
}.

Inductive Event : Type :=
| Next                                           (* next() *)
| MessagesCreate (prompt : string)
| InferenceTarget (target pathname : string)
| FallbackTarget (target url : string)          (* "Fallback routing to: .." *)
| UltimateFallbackTarget (target url : string)  (* "Ultimate fallback routing to: .." *)
| Proxy (target path : string)
| ProxyErrorLogged                               (* onError only logs *)
| DefaultProxyError
| Send (code : nat) (text : string).

Definition fallbackTarget (url : string) : string :=
  if startsWith url "/api" then "http://localhost:8001"
  else if startsWith url "/admin" then "http://localhost:8003"
  else if startsWith url "/static" then "http://localhost:8004"
  else "http://localhost:8002".

Definition buildPrompt (req : Request) : string :=
  (newline
  ++ "You are a reverse proxy server similar to nginx. Your job is to analyze this incoming request and determine where it should be routed." ++ newline
  ++ "Based on the routing rules, you must decide which backend service should handle this request." ++ newline
  ++ newline
  ++ "Request:" ++ newline
  ++ "- Method: " ++ method req ++ newline
  ++ "- URL: " ++ url req ++ newline
  ++ "- Headers: " ++ headers req ++ newline
  ++ "- Body: " ++ body req ++ newline
  ++ newline
  ++ "Available backends:" ++ newline
  ++ "1. API Service: http://localhost:8001 - Handles all API requests with paths starting with /api" ++ newline
  ++ "2. Web Service: http://localhost:8002 - Handles all web page requests" ++ newline
  ++ "3. Admin Service: http://localhost:8003 - Handles admin requests with paths starting with /admin" ++ newline
  ++ "4. Static Service: http://localhost:8004 - Handles requests for static assets (images, css, js)" ++ newline
  ++ newline
  ++ "Routing Rules:" ++ newline
  ++ "- If the URL starts with " ++ dquote ++ "/api" ++ dquote ++ ", route to the API Service (http://localhost:8001) and maintain the same path" ++ newline
  ++ "- If the URL starts with " ++ dquote ++ "/admin" ++ dquote ++ ", route to the Admin Service (http://localhost:8003) and maintain the same path" ++ newline
  ++ "- If the URL starts with " ++ dquote ++ "/static" ++ dquote ++ ", route to the Static Service (http://localhost:8004) and maintain the same path" ++ newline
  ++ "- For all other URLs, route to the Web Service (http://localhost:8002) and maintain the same path" ++ newline
  ++ newline
  ++ "Your response must be ONLY a single line containing the full target URL including the protocol, host, port, and path. For example:" ++ newline
  ++ "http://localhost:8001/api/users" ++ newline
  ++ newline
  ++ "DO NOT include any explanation or additional text." ++ newline)%string.

(** The [catch (urlError)] branch. *)
Definition ruleBasedFallback (rt : Runtime) (url : string) : list Event :=
  let target := fallbackTarget url in
  FallbackTarget target url ::
  match proxy rt target url with
  | ProxyThrows => [Send 500 "Proxy routing error"]
  | ProxyPassThrough => [Next]
  | ProxyError => [Proxy target url; Send 500 "Proxy error"]
  | ProxyResponse => [Proxy target url]
  end.

(** The outer [catch (error)] branch. *)
Definition ultimateFallback (rt : Runtime) (url : string) : list Event :=
  let target := fallbackTarget url in
  UltimateFallbackTarget target url ::
  match proxy rt target url with
  | ProxyThrows => [Send 500 "Proxy error"]
  | ProxyPassThrough => [Next]
  | ProxyError => [Proxy target url; DefaultProxyError]
  | ProxyResponse => [Proxy target url]
  end.

Definition llmRoutingMiddleware (rt : Runtime) (req : Request) : list Event :=
  let prompt := buildPrompt req in
  MessagesCreate prompt ::
  match messagesCreate rt prompt with
  | Pending => []
  | Rejected => ultimateFallback rt (url req)
  | Fulfilled (Some text :: _) =>
      let targetUrl := trim text in
      match newURL rt targetUrl with
      | None => ruleBasedFallback rt (url req)
      | Some targetUrlObj =>
          let target := (protocol targetUrlObj ++ "//" ++ host targetUrlObj)%string in
          let pathname := pathname targetUrlObj in
          let newPath := (pathname ++ search targetUrlObj)%string in
          InferenceTarget target pathname ::
          match proxy rt target newPath with
          | ProxyThrows => ruleBasedFallback rt (url req)
          | ProxyPassThrough => [Next]
          | ProxyError => [Proxy target newPath; ProxyErrorLogged]
          | ProxyResponse => [Proxy target newPath]
          end
      end
  | Fulfilled _ => ultimateFallback rt (url req)
  end.

End IndexJs.

(** ** A URL constructor for examples

    [new URL(text)] on the texts [http://name[:port][/path][?query]] and
    [https://...], possibly surrounded by spaces and control characters
    below U+0021, which the constructor strips.  The host name is made of
    lower-case letters, the port of one to four digits, the path and the
    query of letters, digits and a few marks, without dot segments.  On
    these texts, and on the texts that do not start with a letter once
    stripped (which have no scheme), the function answers what the
    constructor answers; it answers [None] on every other text and is not
    meant for them. *)

Definition isC0ControlOrSpace (c : ascii) : bool := (nat_of_ascii c <=? 32)%nat.

Definition isLower (c : ascii) : bool :=
  let n := nat_of_ascii c in (97 <=? n)%nat && (n <=? 122)%nat.

Definition isUpper (c : ascii) : bool :=
  let n := nat_of_ascii c in (65 <=? n)%nat && (n <=? 90)%nat.

Definition isDigit (c : ascii) : bool :=
  let n := nat_of_ascii c in (48 <=? n)%nat && (n <=? 57)%nat.

Definition isPathnameChar (c : ascii) : bool :=
  isLower c || isUpper c || isDigit c
  || Ascii.eqb c "/" || Ascii.eqb c "_" || Ascii.eqb c "-" || Ascii.eqb c ".".

Definition isQueryChar (c : ascii) : bool :=
  isLower c || isUpper c || isDigit c
  || Ascii.eqb c "=" || Ascii.eqb c "&" || Ascii.eqb c "_" || Ascii.eqb c "-"
  || Ascii.eqb c ".".

Fixpoint allChars (p : ascii -> bool) (s : string) : bool :=
  match s with
  | String c rest => p c && allChars p rest
  | "" => true
  end.

(** A dot right after a slash: the only way to write a dot segment with
    the characters of [isPathnameChar]. *)
Fixpoint hasDotSegment (s : string) : bool :=
  match s with
  | String "/" (String "." _) => true
  | String _ rest => hasDotSegment rest
  | "" => false
  end.

Definition parsePathAndQuery (protocol host rest : string) : option URL :=
  let pathname := takeWhile isPathnameChar rest in
  let after := dropWhile isPathnameChar rest in
  let wellFormed :=
    match pathname with
    | "" => true
    | String c _ => Ascii.eqb c "/" && negb (hasDotSegment pathname)
    end in
  if negb wellFormed then None
  else
    let pathname := if pathname =? "" then "/" else pathname in
    match after with
    | "" => Some {| protocol := protocol; host := host;
                    pathname := pathname; search := "" |}
    | String "?" query =>
        if allChars isQueryChar query
        then Some {| protocol := protocol; host := host; pathname := pathname;
                     search := if query =? "" then "" else String "?" query |}
        else None
    | _ => None
    end.

Definition parseAuthority (protocol defaultPort rest : string) : option URL :=
  let hostname := takeWhile isLower rest in
  match hostname, dropWhile isLower rest with
  | "", _ => None
  | _, String ":" rest' =>
      let port := takeWhile isDigit rest' in
      match port with
      | String c _ =>
          if negb (Ascii.eqb c "0") && (String.length port <=? 4)%nat
          then parsePathAndQuery protocol
                 (if port =? defaultPort then hostname
                  else (hostname ++ ":" ++ port)%string)
                 (dropWhile isDigit rest')
          else None
      | "" => None
      end
  | _, rest' => parsePathAndQuery protocol hostname rest'
  end.

Definition newURL_http (text : string) : option URL :=
  let input := dropWhileEnd isC0ControlOrSpace (dropWhile isC0ControlOrSpace text) in
  match stripPrefix "http://" input, stripPrefix "https://" input with
  | Some rest, _ => parseAuthority "http:" "80" rest
  | None, Some rest => parseAuthority "https:" "443" rest
  | None, None => None
  end.

(** ** Notions used by the statements *)

(** The place a rule sorts to: the root rule below every other rule, the
    others by the length of their path. *)
Definition rank (r : RouteConfig) : Z :=
  if path r =? "/" then (-1)%Z else Z.of_nat (String.length (path r)).

(** Keys in descending order. *)
Definition descending {A : Type} (key : A -> Z) : list A -> Prop :=
  StronglySorted (fun a b => key b <= key a)%Z.

(** The order of a sorted table: a root rule is followed by root rules
    only, another rule by root rules and by rules that are not longer. *)
Definition sortsBefore (a b : RouteConfig) : Prop :=
  path b = "/"
  \/ (path a <> "/" /\ String.length (path b) <= String.length (path a)).

(** Two rules the comparator does not tell apart by place: two root
    rules, or two other rules of one length. *)
Definition tied (a b : RouteConfig) : bool :=
  if path a =? "/" then path b =? "/"
  else negb (path b =? "/")
       && (String.length (path a) =? String.length (path b))%nat.

(** The rule the loop of [useRuleBasedFallback] stops at (the loop keeps
    its target). *)
Fixpoint findRoute (routes : list RouteConfig) (url : string)
  : option RouteConfig :=
  match routes with
  | [] => None
  | route :: rest =>
      if startsWith url (path route) then Some route
      else findRoute rest url
  end.

(** One pass over the configuration, in its order: keep the matching rule
    of the highest place, the earlier one among equals. *)
Definition pickRoute (url : string) (best : option RouteConfig)
  (r : RouteConfig) : option RouteConfig :=
  if startsWith url (path r) then
    match best with
    | Some b => if (rank b <? rank r)%Z then Some r else Some b
    | None => Some r
    end
  else best.

Definition bestRoute (routes : list RouteConfig) (url : string)
  : option RouteConfig :=
  fold_left (pickRoute url) routes None.

(** Reordering a configuration among rules of equal path length: the two
    lists hold the same rules, and at every position the paths have one
    length. *)
Definition permutesEqualLength (l l' : list RouteConfig) : Prop :=
  Permutation l l'
  /\ map (fun r => String.length (path r)) l
     = map (fun r => String.length (path r)) l'.

(** The rules of every path are in the same order in the two lists. *)
Definition keepsSamePathOrder (l l' : list RouteConfig) : Prop :=
  forall p, filter (fun r => path r =? p) l = filter (fun r => path r =? p) l'.

(** Observations on the actions of a handler. *)
Definition isProxy (e : Event) : bool :=
  match e with Proxy _ _ => true | _ => false end.

Definition isRuleBasedFallback (e : Event) : bool :=
  match e with RuleBasedFallback => true | _ => false end.

(** The requests sent to an upstream. *)
Definition forwards (events : list Event) : list Event := filter isProxy events.

(** The runs of the rule-based fallback. *)
Definition fallbacks (events : list Event) : list Event :=
  filter isRuleBasedFallback events.

(** The routing decision a handler ends with: the last target it chose
    together with the path it forwards, or the absence of a route. *)
Inductive Decision : Type :=
| RouteTo (target path : string)
| NoMatchingRoute.

Fixpoint finalDecision (events : list Event) : option Decision :=
  match events with
  | [] => None
  | e :: rest =>
      match finalDecision rest with
      | Some d => Some d
      | None =>
          match e with
          | Proxy target path => Some (RouteTo target path)
          | FallbackTarget target url => Some (RouteTo target url)
          | NoMatch _ => Some NoMatchingRoute
          | _ => None
          end
      end
  end.

(** The decision of the rule-based matcher for a url: the target of the
    first rule whose path the url starts with, for the url as it is. *)
Definition ruleBasedDecision (routes : list RouteConfig) (url : string)
  : Decision :=
  match findFallbackTarget routes url with
  | Some (String c t) => RouteTo (String c t) url
  | _ => NoMatchingRoute
  end.

(** The options of the inference call of a request. *)
Definition inferenceOptions (routes : list RouteConfig) (req : Request)
  : GenerateTextOptions :=
  {| model := "claude-3-haiku-20240307"; prompt := buildPrompt routes req |}.

(** The line the status route prints for a rule. *)
Definition statusLine (route : RouteConfig) : string :=
  (path route ++ " => " ++ target route)%string.

(** ** [checkBackends]: the targets that are probed at startup *)

(** [[...new Set(values)]]: each value is added in turn, and adding a value
    the set holds changes nothing. *)
Definition setAdd (set : list string) (value : string) : list string :=
  if existsb (String.eqb value) set then set else set ++ [value].

Definition setFrom (values : list string) : list string :=
  fold_left setAdd values [].

(** The constant [backendUrls] of [checkBackends]: the targets of the
    table, each one once. *)
Definition backendUrls (routes : list RouteConfig) : list string :=
  setFrom (map target routes).

(** What becomes of [http.get(backend.url, ...)] and of the promise
    around it: the call throws (the text is not an [http:] url), which
    rejects the promise; or the request is made and the first listener
    that runs resolves the promise; or no listener ever runs. *)
Inductive ProbeResult : Type :=
| GetThrows
| GetResponse (statusCode : nat)   (* the response callback *)
| GetError (message : string)      (* the listener of 'error' *)
| GetTimeout                       (* the listener of the timeout *)
| GetPending.

(** The calls of [http.get] and the line that is logged when the promise
    of a probe settles. *)
Inductive ProbeEvent : Type :=
| HttpGet (url : string)
| Reachable (name : string) (statusCode : nat)
| NotReachable (name message : string)
| TimedOut (name : string)
| ErrorChecking (name : string).   (* the [catch] of the loop *)

(** The loop [for (const backend of backends)]: each probe is awaited
    before the next one starts. *)
Fixpoint probeBackends (httpGet : string -> ProbeResult)
  (backends : list string) : list ProbeEvent * Promise unit :=
  match backends with
  | [] => ([], Fulfilled tt)
  | url :: rest =>
      let (events, returned) := probeBackends httpGet rest in
      match httpGet url with
      | GetThrows => (HttpGet url :: ErrorChecking url :: events, returned)
      | GetResponse statusCode =>
          (HttpGet url :: Reachable url statusCode :: events, returned)
      | GetError message =>
          (HttpGet url :: NotReachable url message :: events, returned)
      | GetTimeout => (HttpGet url :: TimedOut url :: events, returned)
      | GetPending => ([HttpGet url], Pending)
      end
  end.

Definition checkBackends (httpGet : string -> ProbeResult)
  (routes : list RouteConfig) : list ProbeEvent * Promise unit :=
  probeBackends httpGet (backendUrls routes).

(** ** The simple proxy ([src/unnamed/part_002])

    The proxy without inference: the rules are written into the
    middleware. *)

Module SimpleProxy.

Inductive Event : Type :=
| Next                                  (* next() *)
| RoutingTo (targetUrl path : string)   (* "Routing to: .." *)
| Proxy (target path : string)
| DefaultProxyError
| Send (code : nat) (text : string).

Definition targetUrl (path : string) : string :=
  if startsWith path "/api" then "http://localhost:8001"
  else if startsWith path "/admin" then "http://localhost:8003"
  else if startsWith path "/static" then "http://localhost:8004"
  else "http://localhost:8002".

Definition middleware (proxy : string -> string -> ProxyResult)
  (req : Request) : list Event :=
  let path := url req in
  let targetUrl := targetUrl path in
  RoutingTo targetUrl path ::
  match proxy targetUrl path with
  | ProxyThrows => [Send 500 "Proxy error"]
  | ProxyPassThrough => [Next]
  | ProxyError => [Proxy targetUrl path; DefaultProxyError]
  | ProxyResponse => [Proxy targetUrl path]
  end.

End SimpleProxy.

(** ** Notions used by the further statements *)

(** [lit] occurs in [s]. *)
Fixpoint occurs (lit s : string) : bool :=
  match stripPrefix lit s with
  | Some _ => true
  | None =>
      match s with
      | String _ rest => occurs lit rest
      | "" => false
      end
  end.

(** A location block as the README writes it. *)
Definition locationBlock (r : RouteConfig) : string :=
  ("location " ++ path r ++ " {" ++ newline
   ++ "    proxy_pass " ++ target r ++ ";" ++ newline
   ++ "}" ++ newline)%string.

(** A configuration that is one block after the other. *)
Definition locationBlocks (rules : list RouteConfig) : string :=
  fold_right (fun r text => (locationBlock r ++ text)%string) "" rules.

Definition isTargetChar (c : ascii) : bool :=
  negb (isSpace c) && notSemicolon c && negb (Ascii.eqb c "}").

(** A rule that a location block can carry as it is: a path of
    characters other than white space and the opening brace, a target of
    characters other than white space, the semicolon and the closing
    brace in which the word [proxy_pass] does not occur, neither of them
    empty. *)
Definition plainRule (r : RouteConfig) : bool :=
  negb (path r =? "") && allChars isPathChar (path r)
  && negb (target r =? "") && allChars isTargetChar (target r)
  && negb (occurs "proxy_pass" (target r)).

(** What the loader extracts: a path that is not empty, without white
    space or opening brace; a target without semicolon that trimming
    does not change. *)
Definition extractedRule (r : RouteConfig) : Prop :=
  path r <> "" /\ allChars isPathChar (path r) = true
  /\ trim (target r) = target r /\ allChars notSemicolon (target r) = true.

(** The line of the prompt for a rule. *)
Definition ruleLine (route : RouteConfig) : string :=
  ("- If the URL starts with " ++ dquote ++ path route ++ dquote
   ++ ", route to " ++ target route ++ " and maintain the same path"
   ++ newline)%string.

(** The urls [http.get] is called with, and those for which a request is
    made (the call does not throw). *)
Definition called (events : list ProbeEvent) : list string :=
  flat_map (fun e => match e with HttpGet url => [url] | _ => [] end) events.

Definition requested (httpGet : string -> ProbeResult)
  (events : list ProbeEvent) : list string :=
  filter (fun url => match httpGet url with GetThrows => false | _ => true end)
    (called events).

Definition isSend404 (e : Event) : bool :=
  match e with Send 404 _ => true | _ => false end.

Definition isGenerateText (e : Event) : bool :=
  match e with GenerateText _ => true | _ => false end.

Definition IndexJs_isProxy (e : IndexJs.Event) : bool :=
  match e with IndexJs.Proxy _ _ => true | _ => false end.

(** ** Concrete configurations, requests and runtimes *)

Module Examples.

Definition unlines (lines : list string) : string :=
  String.concat newline lines.

(** The configuration file of the repository. *)
Definition proxyConf : string :=
  unlines
    ["http {";
     "    server {";
     "        listen 3000;";
     "        server_name localhost;";
     "";
     "        # API Service";
     "        location /api {";
     "            proxy_pass http://localhost:8001;";
     "            proxy_set_header Host $host;";
     "            proxy_set_header X-Real-IP $remote_addr;";
     "        }";
     "";
     "        # Admin Service";
     "        location /admin {";
     "            proxy_pass http://localhost:8003;";
     "            proxy_set_header Host $host;";
     "            proxy_set_header X-Real-IP $remote_addr;";
     "        }";
     "";
     "        # Static Files Service";
     "        location /static {";
     "            proxy_pass http://localhost:8004;";
     "            proxy_set_header Host $host;";
     "            proxy_set_header X-Real-IP $remote_addr;";
     "        }";
     "";
     "        # Default Web Service";
     "        location / {";
     "            proxy_pass http://localhost:8002;";
     "            proxy_set_header Host $host;";
     "            proxy_set_header X-Real-IP $remote_addr;";
     "        }";
     "    }";
     "}"].

Definition readProxyConf (configPath : string) : option string :=
  Some proxyConf.

Definition readNothing (configPath : string) : option string := None.

Definition get (url : string) : Request :=
  {| method := "GET"; url := url; headers := "{}"; body := "{}" |}.

(** The inference service answers [text]; the upstreams in [down] are not
    reached. *)
Definition answering (text : string) (down : list string) : Runtime :=
  {| newURL := newURL_http;
     generateText := fun _ => Fulfilled text;
     proxy := fun target _ =>
                if existsb (String.eqb target) down then ProxyError
                else ProxyResponse |}.

(** The inference call throws. *)
Definition failing : Runtime :=
  {| newURL := newURL_http;
     generateText := fun _ => Rejected;
     proxy := fun _ _ => ProxyResponse |}.

(** The inference call never settles. *)
Definition silent : Runtime :=
  {| newURL := newURL_http;
     generateText := fun _ => Pending;
     proxy := fun _ _ => ProxyResponse |}.

(** The runtime of [src/index.js] with an inference service that answers
    one block of text. *)
Definition answeringIndexJs (text : string) : IndexJs.Runtime :=
  {| IndexJs.newURL := newURL_http;
     IndexJs.messagesCreate := fun _ => Fulfilled [Some text];
     IndexJs.proxy := fun _ _ => ProxyResponse |}.

(** U+00A0, a space for [trim] and not for the URL constructor. *)
Definition nbsp : string := String (ascii_of_nat 160) "".

End Examples.

(** * Part II: properties *)

(** ** Lists and strings *)

Lemma filter_none {A : Type} (p : A -> bool) (l : list A) :
  (forall x, In x l -> p x = false) -> filter p l = [].
Proof.
  induction l as [|y l IH]; simpl; intros H; [reflexivity|].
  rewrite (H y) by now left. apply IH. intros x Hx. apply H. now right.
Qed.

Lemma prefix_same_length (p q s : string) :
  String.prefix p s = true -> String.prefix q s = true ->
  String.length p = String.length q -> p = q.
Proof.
  revert q s. induction p as [|a p IH]; intros [|b q] [|c s]; simpl;
    try discriminate; try reflexivity.
  destruct (ascii_dec a c) as [->|]; [|discriminate].
  destruct (ascii_dec b c) as [->|]; [|discriminate].
  intros Hp Hq Hlen. f_equal. apply (IH q s); auto.
Qed.

(** ** The sort is a stable sort by descending key *)

Lemma compareRoutes_rank (a b : RouteConfig) :
  (compareRoutes a b <? 0)%Z = (rank b <? rank a)%Z.
Proof.
  unfold compareRoutes, rank.
  destruct (path a =? "/"), (path b =? "/");
    repeat match goal with
           | |- context [Z.ltb ?x ?y] => destruct (Z.ltb_spec x y)
           end; lia.
Qed.

Section StableInsertion.

Context {A : Type}.
Variable comparefn : A -> A -> Z.
Variable key : A -> Z.
Hypothesis comparefn_key :
  forall a b, (comparefn a b <? 0)%Z = (key b <? key a)%Z.

Lemma arraySort_snoc (l : list A) (x : A) :
  arraySort comparefn (l ++ [x]) = insertSorted comparefn x (arraySort comparefn l).
Proof. unfold arraySort. now rewrite fold_left_app. Qed.

Lemma insertSorted_perm (x : A) (s : list A) :
  Permutation (x :: s) (insertSorted comparefn x s).
Proof.
  induction s as [|e s IH]; simpl; [reflexivity|].
  destruct (comparefn x e <? 0)%Z; [reflexivity|].
  rewrite perm_swap. now constructor.
Qed.

Lemma arraySort_perm (l : list A) : Permutation l (arraySort comparefn l).
Proof.
  induction l as [|x l IH] using rev_ind; [reflexivity|].
  rewrite arraySort_snoc, <- insertSorted_perm.
  rewrite <- Permutation_cons_append. now constructor.
Qed.

Lemma insertSorted_descending (x : A) (s : list A) :
  descending key s -> descending key (insertSorted comparefn x s).
Proof.
  unfold descending.
  induction s as [|e s IH]; simpl; intros Hs.
  - repeat constructor.
  - rewrite comparefn_key.
    apply StronglySorted_inv in Hs as [Hs He].
    destruct (Z.ltb_spec (key e) (key x)) as [Hlt|Hge].
    + constructor; [now constructor|].
      constructor; [lia|].
      rewrite Forall_forall in He |- *. intros y Hy.
      specialize (He y Hy). lia.
    + constructor; [auto|].
      rewrite Forall_forall in He |- *. intros y Hy.
      apply (Permutation_in _ (Permutation_sym (insertSorted_perm x s))) in Hy.
      destruct Hy as [<-|Hy]; [lia|auto].
Qed.

Lemma arraySort_descending (l : list A) :
  descending key (arraySort comparefn l).
Proof.
  induction l as [|x l IH] using rev_ind.
  - constructor.
  - rewrite arraySort_snoc. now apply insertSorted_descending.
Qed.

(** A pivot whose key is at most every key of the list goes to its end. *)
Lemma insertSorted_last (x : A) (s : list A) :
  Forall (fun e => key x <= key e)%Z s ->
  insertSorted comparefn x s = s ++ [x].
Proof.
  induction 1 as [|e s He _ IH]; simpl; [reflexivity|].
  rewrite comparefn_key.
  destruct (Z.ltb_spec (key e) (key x)); [lia|]. now rewrite IH.
Qed.

Lemma descending_snoc_inv (l : list A) (x : A) :
  descending key (l ++ [x]) ->
  descending key l /\ Forall (fun e => key x <= key e)%Z l.
Proof.
  unfold descending.
  induction l as [|e l IH]; simpl; intros H.
  - split; constructor.
  - apply StronglySorted_inv in H as [H He].
    destruct (IH H) as [Hl Hx]. split.
    + constructor; [exact Hl|].
      apply Forall_app in He. tauto.
    + constructor; [|exact Hx].
      apply Forall_app in He as [_ He]. now inversion He.
Qed.

Lemma arraySort_fixed (l : list A) :
  descending key l -> arraySort comparefn l = l.
Proof.
  induction l as [|x l IH] using rev_ind; [reflexivity|].
  intros H. apply descending_snoc_inv in H as [Hl Hx].
  rewrite arraySort_snoc, (IH Hl). now apply insertSorted_last.
Qed.

Lemma arraySort_idempotent (l : list A) :
  arraySort comparefn (arraySort comparefn l) = arraySort comparefn l.
Proof. apply arraySort_fixed, arraySort_descending. Qed.

(** The elements of one key keep their order. *)
Lemma insertSorted_filter (p : A -> bool) (k : Z) (x : A) (s : list A) :
  (forall e, p e = true -> key e = k) ->
  descending key s ->
  filter p (insertSorted comparefn x s) = filter p (s ++ [x]).
Proof.
  intros Hp. unfold descending.
  induction s as [|e s IH]; simpl; intros Hs; [reflexivity|].
  apply StronglySorted_inv in Hs as [Hs He].
  rewrite comparefn_key.
  destruct (Z.ltb_spec (key e) (key x)) as [Hlt|Hge].
  - simpl. rewrite filter_app. simpl.
    destruct (p x) eqn:Hx; [|now rewrite app_nil_r].
    apply Hp in Hx.
    assert (He' : p e = false).
    { destruct (p e) eqn:E; [apply Hp in E; lia|reflexivity]. }
    rewrite He'.
    rewrite (filter_none p s); [reflexivity|].
    intros y Hy. rewrite Forall_forall in He. specialize (He y Hy).
    destruct (p y) eqn:E; [apply Hp in E; lia|reflexivity].
  - simpl. now rewrite (IH Hs).
Qed.

Lemma arraySort_stable (p : A -> bool) (k : Z) (l : list A) :
  (forall e, p e = true -> key e = k) ->
  filter p (arraySort comparefn l) = filter p l.
Proof.
  intros Hp.
  induction l as [|x l IH] using rev_ind; [reflexivity|].
  rewrite arraySort_snoc.
  rewrite (insertSorted_filter p k) by (auto using arraySort_descending).
  now rewrite !filter_app, IH.
Qed.

(** A descending arrangement that keeps the order of the elements of each
    key is determined by these two properties. *)
Lemma descending_stable_unique (l1 l2 : list A) :
  descending key l1 -> descending key l2 ->
  (forall k, filter (fun e => key e =? k)%Z l1
             = filter (fun e => key e =? k)%Z l2) ->
  l1 = l2.
Proof.
  unfold descending. revert l2.
  induction l1 as [|a l1 IH]; intros [|b l2] H1 H2 Hf; auto.
  - specialize (Hf (key b)). simpl in Hf. rewrite Z.eqb_refl in Hf.
    discriminate.
  - specialize (Hf (key a)). simpl in Hf. rewrite Z.eqb_refl in Hf.
    discriminate.
  - apply StronglySorted_inv in H1 as [H1 Ha].
    apply StronglySorted_inv in H2 as [H2 Hb].
    rewrite Forall_forall in Ha, Hb.
    assert (Hkey : key a = key b).
    { destruct (Z.eq_dec (key a) (key b)) as [E|E]; [exact E|exfalso].
      assert (Hab : (key a <= key b)%Z).
      { pose proof (Hf (key a)) as H. simpl in H.
        rewrite Z.eqb_refl in H.
        destruct (Z.eqb_spec (key b) (key a)) as [E'|_]; [congruence|].
        apply Hb.
        assert (Hin : In a (filter (fun e => (key e =? key a)%Z) l2))
          by (rewrite <- H; now left).
        now apply filter_In in Hin. }
      assert (Hba : (key b <= key a)%Z).
      { pose proof (Hf (key b)) as H. simpl in H.
        rewrite Z.eqb_refl in H.
        destruct (Z.eqb_spec (key a) (key b)) as [E'|_]; [congruence|].
        apply Ha.
        assert (Hin : In b (filter (fun e => (key e =? key b)%Z) l1))
          by (rewrite H; now left).
        now apply filter_In in Hin. }
      lia. }
    assert (Hhead : a = b).
    { pose proof (Hf (key a)) as H. simpl in H.
      rewrite <- Hkey, Z.eqb_refl in H. congruence. }
    subst b. f_equal. apply IH; auto.
    intros k. specialize (Hf k). simpl in Hf.
    destruct (key a =? k)%Z; congruence.
Qed.

(** The sort is the only such arrangement of its argument. *)
Lemma arraySort_unique (l sorted : list A) :
  descending key sorted ->
  (forall k, filter (fun e => key e =? k)%Z sorted
             = filter (fun e => key e =? k)%Z l) ->
  sorted = arraySort comparefn l.
Proof.
  intros Hd Hf. apply descending_stable_unique; auto.
  - apply arraySort_descending.
  - intros k. rewrite Hf. symmetry.
    apply (arraySort_stable _ k). intros e He. now apply Z.eqb_eq.
Qed.

End StableInsertion.

(** ** The sorted route table *)

Lemma tied_rank (a b : RouteConfig) : tied a b = true -> rank b = rank a.
Proof.
  unfold tied, rank.
  destruct (path a =? "/"), (path b =? "/"); simpl; try discriminate; auto.
  intros H. apply Nat.eqb_eq in H. now rewrite H.
Qed.

Lemma descending_sortsBefore (l : list RouteConfig) :
  descending rank l -> StronglySorted sortsBefore l.
Proof.
  unfold descending. induction 1 as [|a l Hl IH Ha]; constructor; auto.
  rewrite Forall_forall in Ha |- *. intros b Hb. specialize (Ha b Hb).
  unfold sortsBefore. unfold rank in Ha.
  destruct (String.eqb_spec (path a) "/"), (String.eqb_spec (path b) "/");
    auto; right; split; auto; lia.
Qed.

(** The sorted table is the one arrangement of the rules in descending
    place that keeps the configuration order within each place. *)
Lemma sortRoutes_unique (rules sorted : list RouteConfig) :
  descending rank sorted ->
  (forall k, filter (fun r => rank r =? k)%Z sorted
             = filter (fun r => rank r =? k)%Z rules) ->
  sorted = sortRoutes rules.
Proof. apply (arraySort_unique compareRoutes rank compareRoutes_rank). Qed.

Lemma length_rank (n : nat) (r : RouteConfig) :
  n <> 1 -> (String.length (path r) =? n)%nat = true -> rank r = Z.of_nat n.
Proof.
  intros Hn Hr. apply Nat.eqb_eq in Hr. unfold rank.
  destruct (String.eqb_spec (path r) "/") as [E|_]; [|now rewrite Hr].
  rewrite E in Hr. simpl in Hr. congruence.
Qed.

(** C6, as stated, fails: a rule with a path of one character other
    than [/] has the length of the [/] rule; configured after it, it is
    moved before it, since every [/] rule sorts last. *)
Lemma one_character_path_moves_before_root :
  ~ (forall (rules : list RouteConfig) (n : nat),
        filter (fun r => String.length (path r) =? n)%nat (sortRoutes rules)
        = filter (fun r => String.length (path r) =? n)%nat rules).
Proof.
  intros H.
  specialize (H [mkRoute "/" "http://localhost:8002";
                 mkRoute "x" "http://localhost:8001"] 1).
  vm_compute in H. discriminate.
Qed.

(** C6, amended.  Sorting a route table is idempotent; the sorted table
    is a rearrangement of the configured rules in which every rule with path
    [/] comes after every other rule and longer paths come before shorter
    ones; the rules the comparator does not order (the [/] rules among
    themselves, the other rules of one length among themselves, hence
    also rules with the same path) keep their configuration order: so do
    all the rules of a length other than 1, the length of [/].  This holds
    for every list of rules. *)
Theorem sortRoutes_idempotent_ordered_stable (rules : list RouteConfig) :
  sortRoutes (sortRoutes rules) = sortRoutes rules
  /\ Permutation rules (sortRoutes rules)
  /\ StronglySorted sortsBefore (sortRoutes rules)
  /\ (forall r, filter (tied r) (sortRoutes rules) = filter (tied r) rules)
  /\ (forall n, n <> 1 ->
        filter (fun r => String.length (path r) =? n)%nat (sortRoutes rules)
        = filter (fun r => String.length (path r) =? n)%nat rules).
Proof.
  unfold sortRoutes. repeat split.
  - apply (arraySort_idempotent compareRoutes rank compareRoutes_rank).
  - apply arraySort_perm.
  - apply descending_sortsBefore.
    apply (arraySort_descending compareRoutes rank compareRoutes_rank).
  - intros r.
    apply (arraySort_stable compareRoutes rank compareRoutes_rank _ (rank r)).
    intros e. apply tied_rank.
  - intros n Hn.
    apply (arraySort_stable compareRoutes rank compareRoutes_rank _ (Z.of_nat n)).
    intros e. now apply length_rank.
Qed.

(** ** The rule-based matcher on a sorted table *)

Lemma findFallbackTarget_findRoute (routes : list RouteConfig) (url : string) :
  findFallbackTarget routes url = option_map target (findRoute routes url).
Proof.
  induction routes as [|r routes IH]; simpl; [reflexivity|].
  now destruct (startsWith url (path r)).
Qed.

Lemma findRoute_Some (routes : list RouteConfig) (url : string) (r : RouteConfig) :
  findRoute routes url = Some r ->
  exists before after,
    routes = before ++ r :: after
    /\ startsWith url (path r) = true
    /\ Forall (fun e => startsWith url (path e) = false) before.
Proof.
  induction routes as [|e routes IH]; simpl; [discriminate|].
  destruct (startsWith url (path e)) eqn:He.
  - intros [= <-]. exists [], routes. auto.
  - intros H. destruct (IH H) as (before & after & -> & Hr & Hb).
    exists (e :: before), after. auto.
Qed.

Lemma findRoute_None (routes : list RouteConfig) (url : string) :
  findRoute routes url = None <->
  (forall r, In r routes -> startsWith url (path r) = false).
Proof.
  induction routes as [|e routes IH]; simpl.
  - split; [intros _ r []|reflexivity].
  - destruct (startsWith url (path e)) eqn:He; split.
    + discriminate.
    + intros H. rewrite (H e) in He by now left. discriminate.
    + intros H r [<-|Hr]; [exact He|]. now apply IH.
    + intros H. apply IH. auto.
Qed.

Lemma findRoute_In (routes : list RouteConfig) (url : string) (r : RouteConfig) :
  findRoute routes url = Some r -> In r routes.
Proof.
  intros H. destruct (findRoute_Some _ _ _ H) as (b & a & -> & _).
  apply in_elt.
Qed.

(** On a table in descending order the first match has the highest place
    among the matching rules. *)
Lemma findRoute_highest (routes : list RouteConfig) (url : string)
  (r0 r : RouteConfig) :
  descending rank routes ->
  findRoute routes url = Some r0 ->
  In r routes -> startsWith url (path r) = true ->
  (rank r <= rank r0)%Z.
Proof.
  intros Hs H0 Hr Hm.
  destruct (findRoute_Some _ _ _ H0) as (before & after & -> & _ & Hb).
  apply in_app_or in Hr as [Hr|[<-|Hr]].
  - rewrite Forall_forall in Hb. rewrite (Hb r Hr) in Hm. discriminate.
  - lia.
  - assert (Ha : Forall (fun b => (rank b <= rank r0)%Z) after).
    { clear - Hs. unfold descending in Hs.
      induction before as [|e before IH]; simpl in Hs;
        apply StronglySorted_inv in Hs as [Hs Ha]; auto. }
    rewrite Forall_forall in Ha. now apply Ha.
Qed.

(** Sorting and scanning is one pass over the configuration. *)
Lemma findRoute_insertSorted (x : RouteConfig) (s : list RouteConfig)
  (url : string) :
  descending rank s ->
  findRoute (insertSorted compareRoutes x s) url
  = pickRoute url (findRoute s url) x.
Proof.
  unfold descending, pickRoute.
  induction s as [|e s IH]; simpl; intros Hs.
  - now destruct (startsWith url (path x)).
  - apply StronglySorted_inv in Hs as [Hs He].
    rewrite compareRoutes_rank.
    destruct (Z.ltb_spec (rank e) (rank x)) as [Hlt|Hge]; simpl.
    + destruct (startsWith url (path x)); [|reflexivity].
      destruct (startsWith url (path e)) eqn:Ee.
      * destruct (Z.ltb_spec (rank e) (rank x)); [reflexivity|lia].
      * destruct (findRoute s url) as [b|] eqn:Eb; [|reflexivity].
        apply findRoute_In in Eb. rewrite Forall_forall in He.
        specialize (He b Eb).
        destruct (Z.ltb_spec (rank b) (rank x)); [reflexivity|lia].
    + destruct (startsWith url (path e)) eqn:Ee.
      * destruct (startsWith url (path x)); [|reflexivity].
        destruct (Z.ltb_spec (rank e) (rank x)); [lia|reflexivity].
      * now apply IH.
Qed.

Lemma findRoute_sortRoutes (rules : list RouteConfig) (url : string) :
  findRoute (sortRoutes rules) url = bestRoute rules url.
Proof.
  unfold sortRoutes, bestRoute.
  induction rules as [|x rules IH] using rev_ind; [reflexivity|].
  rewrite arraySort_snoc, fold_left_app. simpl. rewrite <- IH.
  apply findRoute_insertSorted.
  apply (arraySort_descending compareRoutes rank compareRoutes_rank).
Qed.

Lemma rank_length (r r0 : RouteConfig) :
  path r0 <> "" -> (rank r <= rank r0)%Z ->
  String.length (path r) <= String.length (path r0).
Proof.
  intros Hne Hle. unfold rank in Hle.
  destruct (String.eqb_spec (path r) "/") as [Er|Er],
           (String.eqb_spec (path r0) "/") as [E0|E0].
  - now rewrite Er, E0.
  - rewrite Er. simpl. destruct (path r0); [contradiction|simpl; lia].
  - lia.
  - lia.
Qed.

Lemma startsWith_iff (url prefix : string) :
  startsWith url prefix = true <-> exists rest, url = (prefix ++ rest)%string.
Proof.
  unfold startsWith. revert url.
  induction prefix as [|a p IH]; intros url.
  - split; [intros _; now exists url|intros _; now destruct url].
  - destruct url as [|c s]; simpl.
    + split; [discriminate|intros [rest H]; discriminate].
    + destruct (ascii_dec a c) as [->|Hne].
      * split.
        -- intros H. apply IH in H as [rest ->]. now exists rest.
        -- intros [rest H]. apply IH. exists rest. congruence.
      * split; [discriminate|intros [rest H]; congruence].
Qed.

Lemma filter_head {A : Type} (p : A -> bool) (l : list A) (x : A) (rest : list A) :
  filter p l = x :: rest ->
  exists before after,
    l = before ++ x :: after /\ Forall (fun e => p e = false) before.
Proof.
  induction l as [|e l IH]; simpl; [discriminate|].
  destruct (p e) eqn:He.
  - intros [= -> _]. exists [], l. auto.
  - intros H. destruct (IH H) as (before & after & -> & Hb).
    exists (e :: before), after. auto.
Qed.

(** The rule the matcher stops at on the sorted table is, among the
    configured rules with its path, the one configured first. *)
Lemma findRoute_first_configured (rules : list RouteConfig) (url : string)
  (r0 : RouteConfig) :
  findRoute (sortRoutes rules) url = Some r0 ->
  exists before after,
    rules = before ++ r0 :: after
    /\ Forall (fun e => path e <> path r0) before.
Proof.
  intros H.
  destruct (findRoute_Some _ _ _ H) as (s1 & s2 & Hs & Hm & Hb).
  pose (p := fun e : RouteConfig => path e =? path r0).
  assert (Hstable : filter p (sortRoutes rules) = filter p rules).
  { apply (arraySort_stable compareRoutes rank compareRoutes_rank _ (rank r0)).
    intros e He. unfold p in He. apply String.eqb_eq in He.
    unfold rank. now rewrite He. }
  rewrite Hs, filter_app in Hstable. simpl in Hstable.
  rewrite (filter_none p s1) in Hstable.
  - unfold p at 1 in Hstable. rewrite String.eqb_refl in Hstable.
    simpl in Hstable. symmetry in Hstable.
    destruct (filter_head _ _ _ _ Hstable) as (before & after & -> & Hbefore).
    exists before, after. split; [reflexivity|].
    eapply Forall_impl; [|exact Hbefore].
    intros e He. unfold p in He. now apply String.eqb_neq.
  - intros e He. rewrite Forall_forall in Hb. specialize (Hb e He).
    unfold p. destruct (String.eqb_spec (path e) (path r0)) as [E|]; auto.
    rewrite E in Hb. congruence.
Qed.

Lemma rank_match_same_path (url : string) (a b : RouteConfig) :
  rank a = rank b ->
  startsWith url (path a) = true -> startsWith url (path b) = true ->
  path a = path b.
Proof.
  unfold rank, startsWith.
  destruct (String.eqb_spec (path a) "/") as [Ea|Ea],
           (String.eqb_spec (path b) "/") as [Eb|Eb]; intros Hr Ha Hb.
  - congruence.
  - lia.
  - lia.
  - apply (prefix_same_length _ _ url); auto. lia.
Qed.

(** What the matcher finds on the sorted table, in terms of the
    configuration. *)
Lemma findRoute_sortRoutes_spec (rules : list RouteConfig) (url : string) :
  match findRoute (sortRoutes rules) url with
  | Some r0 =>
      In r0 rules
      /\ startsWith url (path r0) = true
      /\ (forall r, In r rules -> startsWith url (path r) = true ->
                    (rank r <= rank r0)%Z)
      /\ exists before after,
           rules = before ++ r0 :: after
           /\ Forall (fun e => path e <> path r0) before
  | None => forall r, In r rules -> startsWith url (path r) = false
  end.
Proof.
  pose proof (arraySort_perm compareRoutes rules) as Hp.
  fold (sortRoutes rules) in Hp.
  destruct (findRoute (sortRoutes rules) url) as [r0|] eqn:E.
  - destruct (findRoute_Some _ _ _ E) as (_ & _ & _ & Hm0 & _).
    destruct (findRoute_first_configured _ _ _ E) as (before & after & Hl & Hb).
    repeat split; auto.
    + rewrite Hl. apply in_elt.
    + intros r Hr Hm.
      apply (findRoute_highest (sortRoutes rules) url); auto.
      * apply (arraySort_descending compareRoutes rank compareRoutes_rank).
      * now apply (Permutation_in _ Hp).
    + eauto.
  - rewrite findRoute_None in E. intros r Hr. apply E.
    now apply (Permutation_in _ Hp).
Qed.

Lemma keepsSamePathOrder_In (l l' : list RouteConfig) (r : RouteConfig) :
  keepsSamePathOrder l l' -> In r l -> In r l'.
Proof.
  intros H Hr.
  assert (Hin : In r (filter (fun e => path e =? path r) l))
    by (apply filter_In; split; [exact Hr|apply String.eqb_refl]).
  rewrite (H (path r)) in Hin. now apply filter_In in Hin.
Qed.

Lemma keepsSamePathOrder_sym (l l' : list RouteConfig) :
  keepsSamePathOrder l l' -> keepsSamePathOrder l' l.
Proof. intros H p. symmetry. apply H. Qed.

Lemma filter_first_with_path (l before after : list RouteConfig)
  (r0 : RouteConfig) :
  l = before ++ r0 :: after ->
  Forall (fun e => path e <> path r0) before ->
  filter (fun e => path e =? path r0) l
  = r0 :: filter (fun e => path e =? path r0) after.
Proof.
  intros -> Hb. rewrite filter_app. simpl.
  rewrite String.eqb_refl, filter_none; [reflexivity|].
  intros e He. rewrite Forall_forall in Hb.
  now apply String.eqb_neq, Hb.
Qed.

(** The selected rule depends on the order of the configuration only
    through the order of the rules of each path. *)
Lemma findRoute_sortRoutes_order (l l' : list RouteConfig) (url : string) :
  keepsSamePathOrder l l' ->
  findRoute (sortRoutes l) url = findRoute (sortRoutes l') url.
Proof.
  intros H.
  pose proof (findRoute_sortRoutes_spec l url) as S.
  pose proof (findRoute_sortRoutes_spec l' url) as S'.
  destruct (findRoute (sortRoutes l) url) as [r|],
           (findRoute (sortRoutes l') url) as [r'|]; auto.
  - destruct S as (Hr & Hm & Hmax & before & after & Hl & Hb).
    destruct S' as (Hr' & Hm' & Hmax' & before' & after' & Hl' & Hb').
    assert (Hrank : rank r = rank r').
    { apply Z.le_antisymm.
      - apply Hmax'; auto. now apply (keepsSamePathOrder_In l l').
      - apply Hmax; auto.
        apply (keepsSamePathOrder_In l' l);
          [now apply keepsSamePathOrder_sym|assumption]. }
    pose proof (rank_match_same_path url r r' Hrank Hm Hm') as Hpath.
    pose proof (filter_first_with_path l before after r Hl Hb) as F.
    pose proof (filter_first_with_path l' before' after' r' Hl' Hb') as F'.
    rewrite (H (path r)), Hpath, F' in F. congruence.
  - destruct S as (Hr & Hm & _).
    rewrite (S' r) in Hm; [discriminate|].
    now apply (keepsSamePathOrder_In l l').
  - destruct S' as (Hr' & Hm' & _).
    rewrite (S r') in Hm'; [discriminate|].
    apply (keepsSamePathOrder_In l' l);
          [now apply keepsSamePathOrder_sym|assumption].
Qed.

(** C3, as stated, fails: two rules with the same path have paths of equal
    length, and exchanging them changes the selected target. *)
Lemma equal_length_permutation_changes_target :
  ~ (forall (l l' : list RouteConfig) (P : string),
        permutesEqualLength l l' ->
        findFallbackTarget (sortRoutes l) P
        = findFallbackTarget (sortRoutes l') P).
Proof.
  intros H.
  assert (Hswap : permutesEqualLength
                    [mkRoute "/api" "http://localhost:8001";
                     mkRoute "/api" "http://localhost:9001"]
                    [mkRoute "/api" "http://localhost:9001";
                     mkRoute "/api" "http://localhost:8001"]).
  { split; [apply perm_swap|reflexivity]. }
  specialize (H _ _ "/api/users" Hswap).
  vm_compute in H. discriminate.
Qed.

(** C3, amended.  For every configuration whose paths are not empty and
    every request path [P]: the selected target does not change when rules
    of equal path length are permuted, as long as the rules with the same
    path keep their order; when a rule matches [P], the selected rule
    matches [P], no matching rule has a longer path, and it is the first
    configured rule with its path; a rule matches exactly when its path is
    an initial part of [P] as a string. *)
Theorem matcher_selects_longest_prefix (l l' : list RouteConfig) (P : string) :
  Forall (fun r => path r <> "") l ->
  permutesEqualLength l l' ->
  keepsSamePathOrder l l' ->
  findFallbackTarget (sortRoutes l) P = findFallbackTarget (sortRoutes l') P
  /\ (forall r, In r l -> startsWith P (path r) = true ->
        exists r0 before after,
          findFallbackTarget (sortRoutes l) P = Some (target r0)
          /\ startsWith P (path r0) = true
          /\ String.length (path r) <= String.length (path r0)
          /\ l = before ++ r0 :: after
          /\ Forall (fun e => path e <> path r0) before)
  /\ (forall r, startsWith P (path r) = true
                <-> exists rest, P = (path r ++ rest)%string).
Proof.
  intros Hne _ Horder. split; [|split].
  - rewrite !findFallbackTarget_findRoute.
    now rewrite (findRoute_sortRoutes_order l l' P Horder).
  - intros r Hr Hm.
    pose proof (findRoute_sortRoutes_spec l P) as S.
    rewrite findFallbackTarget_findRoute.
    destruct (findRoute (sortRoutes l) P) as [r0|].
    + destruct S as (Hr0 & Hm0 & Hmax & before & after & Hl & Hb).
      exists r0, before, after. repeat split; auto.
      apply rank_length; [|now apply Hmax].
      rewrite Forall_forall in Hne. now apply Hne.
    + rewrite (S r Hr) in Hm. discriminate.
  - intros r. apply startsWith_iff.
Qed.

Lemma matcher_selects_longest_prefix_witness :
  let l := [mkRoute "/api" "http://localhost:8001";
            mkRoute "/admin" "http://localhost:8003";
            mkRoute "/app" "http://localhost:8005";
            mkRoute "/" "http://localhost:8002"] in
  let l' := [mkRoute "/app" "http://localhost:8005";
             mkRoute "/admin" "http://localhost:8003";
             mkRoute "/api" "http://localhost:8001";
             mkRoute "/" "http://localhost:8002"] in
  findFallbackTarget (sortRoutes l) "/admin2" = Some "http://localhost:8003"
  /\ findFallbackTarget (sortRoutes l) "/admin2"
     = findFallbackTarget (sortRoutes l') "/admin2".
Proof.
  intros l l'. split; [reflexivity|].
  apply (matcher_selects_longest_prefix l l' "/admin2").
  - repeat constructor; discriminate.
  - split; [|reflexivity].
    apply (perm_trans (l' := [mkRoute "/admin" "http://localhost:8003";
                              mkRoute "/api" "http://localhost:8001";
                              mkRoute "/app" "http://localhost:8005";
                              mkRoute "/" "http://localhost:8002"])).
    + apply perm_swap.
    + apply (perm_trans (l' := [mkRoute "/admin" "http://localhost:8003";
                                mkRoute "/app" "http://localhost:8005";
                                mkRoute "/api" "http://localhost:8001";
                                mkRoute "/" "http://localhost:8002"])).
      * apply perm_skip, perm_swap.
      * apply perm_swap.
  - intros p. unfold l, l'. cbn -[String.eqb].
    destruct (String.eqb_spec "/api" p), (String.eqb_spec "/admin" p),
             (String.eqb_spec "/app" p), (String.eqb_spec "/" p);
      try reflexivity; congruence.
Defined.

(** ** The routing middleware *)

Lemma middleware_not_status (rt : Runtime) (routes : list RouteConfig)
  (req : Request) :
  url req <> "/proxy-status" ->
  llmRoutingMiddleware rt routes req
  = GenerateText (inferenceOptions routes req) ::
    match generateText rt (inferenceOptions routes req) with
    | Pending => []
    | Rejected => useRuleBasedFallback rt routes (url req)
    | Fulfilled targetUrl =>
        match newURL rt targetUrl with
        | None => useRuleBasedFallback rt routes (url req)
        | Some u =>
            InferenceTarget (protocol u ++ "//" ++ host u)%string (pathname u) ::
            match proxy rt (protocol u ++ "//" ++ host u)%string
                    (pathname u ++ search u)%string with
            | ProxyThrows => useRuleBasedFallback rt routes (url req)
            | ProxyPassThrough => [Next]
            | ProxyError =>
                Proxy (protocol u ++ "//" ++ host u)%string
                  (pathname u ++ search u)%string
                  :: useRuleBasedFallback rt routes (url req)
            | ProxyResponse =>
                [Proxy (protocol u ++ "//" ++ host u)%string
                   (pathname u ++ search u)%string]
            end
        end
    end.
Proof.
  intros H. unfold llmRoutingMiddleware, inferenceOptions.
  destruct (String.eqb_spec (url req) "/proxy-status"); [contradiction|].
  reflexivity.
Qed.

Lemma middleware_status (rt : Runtime) (routes : list RouteConfig)
  (req : Request) :
  url req = "/proxy-status" -> llmRoutingMiddleware rt routes req = [Next].
Proof.
  intros H. unfold llmRoutingMiddleware. now rewrite H.
Qed.

(** What the fallback does, case by case. *)
Lemma fallback_cases (rt : Runtime) (routes : list RouteConfig) (url : string) :
  (falsy (findFallbackTarget routes url) = true
   /\ useRuleBasedFallback rt routes url
      = [RuleBasedFallback; NoMatch url; Send 404 "No matching route found"])
  \/ (exists t,
        findFallbackTarget routes url = Some t /\ t <> ""
        /\ ((proxy rt t url = ProxyThrows
             /\ useRuleBasedFallback rt routes url
                = [RuleBasedFallback; FallbackTarget t url; Send 500 "Proxy error"])
            \/ (proxy rt t url = ProxyPassThrough
                /\ useRuleBasedFallback rt routes url
                   = [RuleBasedFallback; FallbackTarget t url; Next])
            \/ (proxy rt t url = ProxyError
                /\ useRuleBasedFallback rt routes url
                   = [RuleBasedFallback; FallbackTarget t url; Proxy t url;
                      DefaultProxyError])
            \/ (proxy rt t url = ProxyResponse
                /\ useRuleBasedFallback rt routes url
                   = [RuleBasedFallback; FallbackTarget t url; Proxy t url]))).
Proof.
  unfold useRuleBasedFallback.
  destruct (findFallbackTarget routes url) as [[|c t]|]; simpl; auto.
  right. exists (String c t). split; [reflexivity|]. split; [discriminate|].
  destruct (proxy rt (String c t) url); auto 6.
Qed.

Lemma fallback_decision (rt : Runtime) (routes : list RouteConfig) (url : string) :
  finalDecision (useRuleBasedFallback rt routes url)
  = Some (ruleBasedDecision routes url).
Proof.
  unfold useRuleBasedFallback, ruleBasedDecision.
  destruct (findFallbackTarget routes url) as [[|c t]|]; simpl; auto.
  destruct (proxy rt (String c t) url); reflexivity.
Qed.

Lemma finalDecision_cons (e : Event) (events : list Event) (d : Decision) :
  finalDecision events = Some d -> finalDecision (e :: events) = Some d.
Proof. simpl. now intros ->. Qed.

(** C1. When the text of the inference service does not parse as a URL,
    the middleware does what the rule-based fallback does for the url of
    the request, and its final decision (target and forwarded path, or no
    route) is the decision of the rule-based matcher on the loaded table. *)
Theorem malformed_text_decided_by_rules (rt : Runtime)
  (routes : list RouteConfig) (req : Request) (text : string) :
  url req <> "/proxy-status" ->
  generateText rt (inferenceOptions routes req) = Fulfilled text ->
  newURL rt text = None ->
  llmRoutingMiddleware rt routes req
  = GenerateText (inferenceOptions routes req)
      :: useRuleBasedFallback rt routes (url req)
  /\ finalDecision (llmRoutingMiddleware rt routes req)
     = Some (ruleBasedDecision routes (url req)).
Proof.
  intros Hurl Htext Hparse.
  rewrite (middleware_not_status rt routes req Hurl), Htext, Hparse.
  split; [reflexivity|].
  apply finalDecision_cons, fallback_decision.
Qed.

Lemma malformed_text_decided_by_rules_witness :
  let rt := Examples.answering "/api/users" [] in
  let routes := parseNginxConfig Examples.readProxyConf "nginclaude-proxy.conf" in
  let req := Examples.get "/api/users" in
  newURL rt "/api/users" = None
  /\ finalDecision (llmRoutingMiddleware rt routes req)
     = Some (RouteTo "http://localhost:8001" "/api/users").
Proof.
  intros rt routes req. split; [reflexivity|].
  destruct (malformed_text_decided_by_rules rt routes req "/api/users")
    as [_ H]; [discriminate|reflexivity|reflexivity|].
  rewrite H. vm_compute. reflexivity.
Defined.

(** C2, as stated, fails: the text parses, the upstream it names is not
    reached, and the rule-based matcher is consulted. *)
Lemma unreachable_inference_target_consults_rules :
  ~ (forall (rt : Runtime) (routes : list RouteConfig) (req : Request)
            (text : string) (u : URL),
        url req <> "/proxy-status" ->
        generateText rt (inferenceOptions routes req) = Fulfilled text ->
        newURL rt text = Some u ->
        fallbacks (llmRoutingMiddleware rt routes req) = []).
Proof.
  intros H.
  specialize (H (Examples.answering "http://localhost:9999/x"
                   ["http://localhost:9999"])
                (parseNginxConfig Examples.readProxyConf "nginclaude-proxy.conf")
                (Examples.get "/api/users")
                "http://localhost:9999/x"
                {| protocol := "http:"; host := "localhost:9999";
                   pathname := "/x"; search := "" |}).
  assert (Hurl : url (Examples.get "/api/users") <> "/proxy-status")
    by discriminate.
  specialize (H Hurl eq_refl eq_refl).
  vm_compute in H. discriminate.
Qed.

(** C2, amended.  When the text of the inference service parses as a URL
    the middleware chooses that URL's protocol and host as the target and
    its path and query as the path, whatever the rules are.  When the
    upstream answers, the request is sent there and nothing else happens:
    the rule-based matcher is not consulted.  The matcher is consulted,
    for the url of the request, when that forward fails with a proxy error
    or when building the proxy throws. *)
Theorem parsed_text_is_the_target (rt : Runtime) (routes : list RouteConfig)
  (req : Request) (text : string) (u : URL) :
  url req <> "/proxy-status" ->
  generateText rt (inferenceOptions routes req) = Fulfilled text ->
  newURL rt text = Some u ->
  let target := (protocol u ++ "//" ++ host u)%string in
  let forwarded := (pathname u ++ search u)%string in
  let chosen :=
    [GenerateText (inferenceOptions routes req);
     InferenceTarget target (pathname u)] in
  (proxy rt target forwarded = ProxyResponse ->
   llmRoutingMiddleware rt routes req = chosen ++ [Proxy target forwarded]
   /\ fallbacks (llmRoutingMiddleware rt routes req) = [])
  /\ (proxy rt target forwarded = ProxyError ->
      llmRoutingMiddleware rt routes req
      = chosen ++ Proxy target forwarded
          :: useRuleBasedFallback rt routes (url req))
  /\ (proxy rt target forwarded = ProxyThrows ->
      llmRoutingMiddleware rt routes req
      = chosen ++ useRuleBasedFallback rt routes (url req)).
Proof.
  intros Hurl Htext Hparse target forwarded chosen.
  rewrite (middleware_not_status rt routes req Hurl), Htext, Hparse.
  fold target forwarded.
  split; [|split]; intros ->; [split|..]; reflexivity.
Qed.

Lemma parsed_text_is_the_target_witness :
  let rt := Examples.answering "http://localhost:9999/x?y=1" [] in
  let routes := parseNginxConfig Examples.readProxyConf "nginclaude-proxy.conf" in
  let req := Examples.get "/api/users" in
  findFallbackTarget routes "/api/users" = Some "http://localhost:8001"
  /\ forwards (llmRoutingMiddleware rt routes req)
     = [Proxy "http://localhost:9999" "/x?y=1"].
Proof.
  intros rt routes req. split; [reflexivity|].
  destruct (parsed_text_is_the_target rt routes req
              "http://localhost:9999/x?y=1"
              {| protocol := "http:"; host := "localhost:9999";
                 pathname := "/x"; search := "?y=1" |})
    as [H _]; [discriminate|reflexivity|reflexivity|].
  destruct (H eq_refl) as [-> _]. reflexivity.
Defined.

(** ** Forwards, fallbacks and responses of one request *)

(** Rewrites a run of the fallback by its actions, one case after the
    other. *)
Ltac fallback_by_cases rt routes u :=
  let t := fresh "t" in
  let Hfind := fresh "Hfind" in
  let Hne := fresh "Hne" in
  let Hproxy := fresh "Hproxy" in
  let Hrun := fresh "Hrun" in
  destruct (fallback_cases rt routes u)
    as [[Hfind Hrun]
       |(t & Hfind & Hne
         & [[Hproxy Hrun]|[[Hproxy Hrun]|[[Hproxy Hrun]|[Hproxy Hrun]]]])];
  rewrite Hrun.

Ltac send_codes :=
  intros ? ? Hin; simpl in Hin;
  repeat match goal with
         | H : _ \/ _ |- _ => destruct H
         | H : False |- _ => destruct H
         | H : Send _ _ = Send _ _ |- _ => inversion H; subst; clear H
         | H : _ = Send _ _ |- _ => discriminate H
         end; auto.

Ltac not_in_events :=
  intros; intros Hin; simpl in Hin;
  repeat match goal with
         | H : _ \/ _ |- _ => destruct H
         | H : False |- _ => destruct H
         | H : _ = _ |- _ => discriminate H
         end.

(** Facts about a list of actions that is known action by action. *)
Ltac events_facts :=
  cbv zeta; unfold forwards, fallbacks; simpl;
  repeat match goal with
         | |- _ /\ _ => split
         | |- _ <= _ => lia
         | |- _ = _ => reflexivity
         | |- forall code text, _ -> _ \/ _ => send_codes
         | |- forall v, ~ _ => not_in_events
         | |- ~ _ => not_in_events
         end.

Lemma fallback_bounds (rt : Runtime) (routes : list RouteConfig) (u : string) :
  let events := useRuleBasedFallback rt routes u in
  length (forwards events) <= 1
  /\ length (fallbacks events) = 1
  /\ (forall code text, In (Send code text) events -> code = 404 \/ code = 500)
  /\ (forall v, ~ In (Json v) events).
Proof.
  fallback_by_cases rt routes u; events_facts.
Qed.

Lemma middleware_bounds (rt : Runtime) (routes : list RouteConfig)
  (req : Request) :
  let events := llmRoutingMiddleware rt routes req in
  length (forwards events) <= 2
  /\ length (fallbacks events) <= 1
  /\ (forall code text, In (Send code text) events -> code = 404 \/ code = 500)
  /\ (forall v, ~ In (Json v) events).
Proof.
  destruct (String.eqb_spec (url req) "/proxy-status") as [E|E].
  - rewrite (middleware_status rt routes req E). events_facts.
  - rewrite (middleware_not_status rt routes req E).
    destruct (generateText rt (inferenceOptions routes req)) as [text| |];
      [destruct (newURL rt text) as [u|]; [destruct (proxy rt _ _)|]| |];
      try (fallback_by_cases rt routes (url req));
      events_facts.
Qed.

(** C4, as stated, fails: the upstream chosen by the inference service is
    not reached; the request is routed a second time, by the rules, and
    sent a second time. *)
Lemma unreachable_upstream_is_rerouted :
  ~ (forall (rt : Runtime) (routes : list RouteConfig) (req : Request)
            (target path : string),
        In (Proxy target path) (llmRoutingMiddleware rt routes req) ->
        proxy rt target path = ProxyError ->
        forwards (llmRoutingMiddleware rt routes req) = [Proxy target path]
        /\ fallbacks (llmRoutingMiddleware rt routes req) = []
        /\ exists text, In (Send 502 text) (llmRoutingMiddleware rt routes req)).
Proof.
  intros H.
  destruct (H (Examples.answering "http://localhost:9999/x"
                 ["http://localhost:9999"])
              (parseNginxConfig Examples.readProxyConf "nginclaude-proxy.conf")
              (Examples.get "/api/users")
              "http://localhost:9999" "/x") as [Hforwards _].
  - vm_compute. auto 6.
  - reflexivity.
  - vm_compute in Hforwards. discriminate.
Qed.

(** C4, amended.  A request is sent to an upstream at most twice and the
    rule-based fallback runs at most once.  When the upstream chosen by
    the inference service is not reached, the middleware sends no error:
    it runs the rule-based fallback for the url of the request, which
    routes the request again.  When the upstream chosen by the fallback
    is not reached, the request is not routed or sent again and the
    answer is left to the proxy library.  The responses the program sends
    itself have the codes 404 and 500. *)
Theorem upstream_failure_falls_back_once (rt : Runtime)
  (routes : list RouteConfig) (req : Request) :
  let events := llmRoutingMiddleware rt routes req in
  length (forwards events) <= 2
  /\ length (fallbacks events) <= 1
  /\ (forall code text, In (Send code text) events -> code = 404 \/ code = 500)
  /\ (forall text u,
        url req <> "/proxy-status" ->
        generateText rt (inferenceOptions routes req) = Fulfilled text ->
        newURL rt text = Some u ->
        proxy rt (protocol u ++ "//" ++ host u)%string
          (pathname u ++ search u)%string = ProxyError ->
        events
        = [GenerateText (inferenceOptions routes req);
           InferenceTarget (protocol u ++ "//" ++ host u)%string (pathname u);
           Proxy (protocol u ++ "//" ++ host u)%string
             (pathname u ++ search u)%string]
          ++ useRuleBasedFallback rt routes (url req))
  /\ (forall t,
        findFallbackTarget routes (url req) = Some t -> t <> "" ->
        proxy rt t (url req) = ProxyError ->
        useRuleBasedFallback rt routes (url req)
        = [RuleBasedFallback; FallbackTarget t (url req); Proxy t (url req);
           DefaultProxyError]).
Proof.
  destruct (middleware_bounds rt routes req) as (H1 & H2 & H3 & _).
  cbv zeta. repeat split; auto.
  - intros text u Hurl Htext Hparse Hproxy.
    rewrite (middleware_not_status rt routes req Hurl), Htext, Hparse, Hproxy.
    reflexivity.
  - intros t Hfind Hne Hproxy. unfold useRuleBasedFallback.
    rewrite Hfind. destruct t as [|c t]; [contradiction|].
    simpl. now rewrite Hproxy.
Qed.

Lemma upstream_failure_falls_back_once_witness :
  let rt := Examples.answering "http://localhost:9999/x"
              ["http://localhost:9999"; "http://localhost:8001"] in
  let routes := parseNginxConfig Examples.readProxyConf "nginclaude-proxy.conf" in
  let req := Examples.get "/api/users" in
  llmRoutingMiddleware rt routes req
  = [GenerateText (inferenceOptions routes req);
     InferenceTarget "http://localhost:9999" "/x";
     Proxy "http://localhost:9999" "/x";
     RuleBasedFallback;
     FallbackTarget "http://localhost:8001" "/api/users";
     Proxy "http://localhost:8001" "/api/users";
     DefaultProxyError].
Proof.
  intros rt routes req.
  destruct (upstream_failure_falls_back_once rt routes req)
    as (_ & _ & _ & Hfirst & Hsecond).
  rewrite (Hfirst "http://localhost:9999/x"
             {| protocol := "http:"; host := "localhost:9999";
                pathname := "/x"; search := "" |});
    [|discriminate|reflexivity|reflexivity|reflexivity].
  rewrite (Hsecond "http://localhost:8001");
    [reflexivity|reflexivity|discriminate|reflexivity].
Defined.




(** ** The application: status route and routing *)

Lemma app_not_status (rt : Runtime) (srv : Server) (req : Request) :
  url req <> "/proxy-status" ->
  app rt srv req = llmRoutingMiddleware rt (routes srv) req.
Proof.
  intros Hurl. unfold app.
  now rewrite (middleware_not_status rt (routes srv) req Hurl).
Qed.

Lemma app_status (rt : Runtime) (srv : Server) (req : Request) :
  url req = "/proxy-status" ->
  app rt srv req
  = if (method req =? "GET") || (method req =? "HEAD")
    then [Json (proxyStatus srv)] else [Next].
Proof.
  intros Hurl. unfold app.
  now rewrite (middleware_status rt (routes srv) req Hurl).
Qed.

Lemma app_json (rt : Runtime) (srv : Server) (req : Request) (v : Status.t) :
  In (Json v) (app rt srv req) ->
  v = proxyStatus srv /\ url req = "/proxy-status".
Proof.
  destruct (String.eqb_spec (url req) "/proxy-status") as [E|E].
  - rewrite (app_status rt srv req E).
    destruct ((method req =? "GET") || (method req =? "HEAD")); simpl.
    + intros [[= <-]|[]]. auto.
    + intros [H|[]]. discriminate.
  - rewrite (app_not_status rt srv req E). intros Hin.
    destruct (middleware_bounds rt (routes srv) req) as (_ & _ & _ & Hj).
    now apply Hj in Hin.
Qed.

(** C10. The routing middleware steps aside, for the status route,
    exactly when the url of the request is the string [/proxy-status].
    Any other url, the status path with a query string included, goes to
    the inference service, and only a request with exactly that url is
    answered by the status route. *)
Theorem status_bypass_exactly_on_equal_url (rt : Runtime) (srv : Server)
  (req : Request) :
  (llmRoutingMiddleware rt (routes srv) req = [Next]
   <-> url req = "/proxy-status")
  /\ (url req <> "/proxy-status" ->
      exists rest,
        app rt srv req
        = GenerateText (inferenceOptions (routes srv) req) :: rest)
  /\ (forall v, In (Json v) (app rt srv req) -> url req = "/proxy-status")
  /\ (url req = "/proxy-status" -> method req = "GET" ->
      app rt srv req = [Json (proxyStatus srv)])
  /\ (forall rt' req',
        url req' = "/proxy-status?verbose=1" ->
        forall v, ~ In (Json v) (app rt' srv req')).
Proof.
  repeat split.
  - intros H.
    destruct (String.eqb_spec (url req) "/proxy-status") as [E|E]; [exact E|].
    rewrite (middleware_not_status rt (routes srv) req E) in H. discriminate.
  - apply middleware_status.
  - intros Hurl. rewrite (app_not_status rt srv req Hurl).
    rewrite (middleware_not_status rt (routes srv) req Hurl). eauto.
  - intros v Hin. now apply app_json in Hin.
  - intros Hurl Hget. rewrite (app_status rt srv req Hurl), Hget. reflexivity.
  - intros rt' req' Hurl v Hin. apply app_json in Hin as [_ Hin].
    rewrite Hurl in Hin. discriminate.
Qed.

Lemma status_bypass_exactly_on_equal_url_witness :
  let srv := startServer Examples.readProxyConf "nginclaude-proxy.conf" in
  let rt := Examples.answering "http://localhost:8001/proxy-status" [] in
  app rt srv (Examples.get "/proxy-status") = [Json (proxyStatus srv)]
  /\ forwards (app rt srv (Examples.get "/proxy-status?verbose=1"))
     = [Proxy "http://localhost:8001" "/proxy-status"].
Proof.
  intros srv rt. split.
  - destruct (status_bypass_exactly_on_equal_url rt srv
                (Examples.get "/proxy-status")) as (_ & _ & _ & H & _).
    apply H; reflexivity.
  - vm_compute. reflexivity.
Defined.

(** ** The configuration loader *)

Lemma sortRoutes_nil : sortRoutes [] = [].
Proof. reflexivity. Qed.

(** C7, as stated, fails: with the empty table, a request that the
    inference service does not resolve to a target may still end without
    "No matching route found": while the inference call does not settle
    the request has no decision and no response. *)
Lemma empty_table_pending_request_unanswered :
  ~ (forall (rt : Runtime) (req : Request),
        let srv := startServer Examples.readNothing "nginclaude-proxy.conf" in
        url req <> "/proxy-status" ->
        (forall text u,
            generateText rt (inferenceOptions (routes srv) req) = Fulfilled text ->
            newURL rt text <> Some u) ->
        finalDecision (app rt srv req) = Some NoMatchingRoute).
Proof.
  intros H.
  specialize (H Examples.silent (Examples.get "/api/users")).
  cbv zeta in H.
  assert (Hurl : url (Examples.get "/api/users") <> "/proxy-status")
    by discriminate.
  assert (Hunresolved :
            forall text u,
              generateText Examples.silent
                (inferenceOptions
                   (routes (startServer Examples.readNothing
                              "nginclaude-proxy.conf"))
                   (Examples.get "/api/users")) = Fulfilled text ->
              newURL Examples.silent text <> Some u)
    by (intros text u Htext; discriminate Htext).
  specialize (H Hurl Hunresolved).
  vm_compute in H. discriminate.
Qed.

(** C7, amended.  When the configuration file cannot be read, or no rule
    is extracted from it, the loader answers the empty table and the
    server is there all the same.  Every request that reaches the routing
    middleware and whose inference call settles without a target (the
    call throws, or its text does not parse as a URL) then ends in the
    rule-based fallback with "No matching route found" and the code 404;
    so does a request whose target, named by the inference service, is
    not reached (the forward fails with a proxy error, or building the
    proxy throws).  While the inference call does not settle, the request
    has no decision and no response. *)
Theorem empty_table_answers_no_route
  (readFileSync : string -> option string) (configPath : string)
  (rt : Runtime) (req : Request) :
  (readFileSync configPath = None
   \/ exists configContent,
        readFileSync configPath = Some configContent
        /\ execLocations 0 configContent = []) ->
  let srv := startServer readFileSync configPath in
  routes srv = []
  /\ (url req <> "/proxy-status" ->
      (generateText rt (inferenceOptions [] req) = Rejected
       \/ exists text,
            generateText rt (inferenceOptions [] req) = Fulfilled text
            /\ newURL rt text = None) ->
      app rt srv req
      = [GenerateText (inferenceOptions [] req); RuleBasedFallback;
         NoMatch (url req); Send 404 "No matching route found"]
      /\ finalDecision (app rt srv req) = Some NoMatchingRoute)
  /\ (forall text u,
        url req <> "/proxy-status" ->
        generateText rt (inferenceOptions [] req) = Fulfilled text ->
        newURL rt text = Some u ->
        (proxy rt (protocol u ++ "//" ++ host u)%string
           (pathname u ++ search u)%string = ProxyError
         \/ proxy rt (protocol u ++ "//" ++ host u)%string
              (pathname u ++ search u)%string = ProxyThrows) ->
        In (Send 404 "No matching route found") (app rt srv req)
        /\ finalDecision (app rt srv req) = Some NoMatchingRoute)
  /\ (url req <> "/proxy-status" ->
      generateText rt (inferenceOptions [] req) = Pending ->
      app rt srv req = [GenerateText (inferenceOptions [] req)]
      /\ finalDecision (app rt srv req) = None).
Proof.
  intros Hload srv.
  assert (Hroutes : routes srv = []).
  { unfold srv, startServer, parseNginxConfig. simpl.
    destruct Hload as [->|(c & -> & ->)]; reflexivity. }
  split; [exact Hroutes|]. split; [|split].
  - intros Hurl Hinference.
    rewrite (app_not_status rt srv req Hurl), Hroutes.
    rewrite (middleware_not_status rt [] req Hurl).
    destruct Hinference as [->|(text & -> & ->)]; split; reflexivity.
  - intros text u Hurl Htext Hparse Hproxy.
    rewrite (app_not_status rt srv req Hurl), Hroutes.
    rewrite (middleware_not_status rt [] req Hurl), Htext, Hparse.
    destruct Hproxy as [-> | ->]; simpl; auto 8.
  - intros Hurl Hpending.
    rewrite (app_not_status rt srv req Hurl), Hroutes.
    rewrite (middleware_not_status rt [] req Hurl), Hpending.
    split; reflexivity.
Qed.

Lemma empty_table_answers_no_route_witness :
  let srv := startServer Examples.readNothing "nginclaude-proxy.conf" in
  routes srv = []
  /\ app Examples.failing srv (Examples.get "/api/users")
     = [GenerateText (inferenceOptions [] (Examples.get "/api/users"));
        RuleBasedFallback; NoMatch "/api/users";
        Send 404 "No matching route found"].
Proof.
  intros srv.
  destruct (empty_table_answers_no_route Examples.readNothing
              "nginclaude-proxy.conf" Examples.failing
              (Examples.get "/api/users")) as (Hroutes & Hrun & _ & _).
  - left. reflexivity.
  - split; [exact Hroutes|].
    apply Hrun; [discriminate|left; reflexivity].
Defined.

(** ** The status report over the lifetime of the server *)

Lemma serve_server (srv : Server) (requests : list (Runtime * Request)) :
  fst (serve srv requests) = srv.
Proof.
  induction requests as [|[rt req] requests IH]; simpl; [reflexivity|].
  destruct (serve srv requests). exact IH.
Qed.

Lemma serve_events (srv : Server) (requests : list (Runtime * Request)) :
  snd (serve srv requests) = map (fun r => app (fst r) srv (snd r)) requests.
Proof.
  induction requests as [|[rt req] requests IH]; simpl; [reflexivity|].
  destruct (serve srv requests). simpl in *. now rewrite IH.
Qed.

(** C9. Whatever requests have been served, with whatever answers of the
    inference service and of the upstreams, the rule list of the status
    report is the list of the rules the loader produced at startup, one
    line [path => target] for each, in their order: in the report the
    server would give next and in every report it has given. *)
Theorem status_reports_startup_rules
  (readFileSync : string -> option string) (configPath : string)
  (requests : list (Runtime * Request)) :
  let loaded := parseNginxConfig readFileSync configPath in
  let run := serve (startServer readFileSync configPath) requests in
  Status.routes (proxyStatus (fst run)) = map statusLine loaded
  /\ Status.config (proxyStatus (fst run)) = configPath
  /\ Forall (fun events =>
               forall v, In (Json v) events ->
                         Status.routes v = map statusLine loaded)
            (snd run)
  /\ (forall line, In line (Status.routes (proxyStatus (fst run))) <->
                   exists r, In r loaded
                             /\ line = (path r ++ " => " ++ target r)%string).
Proof.
  cbv zeta. rewrite serve_server, serve_events. repeat split.
  - apply Forall_forall. intros events Hin v Hv.
    apply in_map_iff in Hin as ([rt req] & <- & _). simpl in Hv.
    apply app_json in Hv as [-> _]. reflexivity.
  - simpl. intros Hin. apply in_map_iff in Hin as (r & <- & Hr). eauto.
  - simpl. intros (r & Hr & ->). apply in_map_iff. eauto.
Qed.

(** ** The text of the inference service *)

(** In [src/vercel-proxy.ts] the text goes to the URL constructor as it
    is. *)
Lemma text_parsed_as_returned (rt : Runtime) (routes : list RouteConfig)
  (req : Request) (text : string) :
  url req <> "/proxy-status" ->
  generateText rt (inferenceOptions routes req) = Fulfilled text ->
  (newURL rt text = None ->
   llmRoutingMiddleware rt routes req
   = GenerateText (inferenceOptions routes req)
       :: useRuleBasedFallback rt routes (url req))
  /\ (forall u, newURL rt text = Some u ->
        exists rest,
          llmRoutingMiddleware rt routes req
          = GenerateText (inferenceOptions routes req)
              :: InferenceTarget (protocol u ++ "//" ++ host u)%string (pathname u)
              :: rest).
Proof.
  intros Hurl Htext.
  rewrite (middleware_not_status rt routes req Hurl), Htext.
  split; [now intros ->|].
  intros u ->. eauto.
Qed.

(** In [src/index.js] the text is trimmed first. *)
Lemma IndexJs_text_trimmed_then_parsed (rt : IndexJs.Runtime) (req : Request)
  (text : string) (blocks : list (option string)) :
  IndexJs.messagesCreate rt (IndexJs.buildPrompt req)
  = Fulfilled (Some text :: blocks) ->
  (IndexJs.newURL rt (trim text) = None ->
   IndexJs.llmRoutingMiddleware rt req
   = IndexJs.MessagesCreate (IndexJs.buildPrompt req)
       :: IndexJs.ruleBasedFallback rt (url req))
  /\ (forall u, IndexJs.newURL rt (trim text) = Some u ->
        exists rest,
          IndexJs.llmRoutingMiddleware rt req
          = IndexJs.MessagesCreate (IndexJs.buildPrompt req)
              :: IndexJs.InferenceTarget
                   (protocol u ++ "//" ++ host u)%string (pathname u)
              :: rest).
Proof.
  intros Htext. unfold IndexJs.llmRoutingMiddleware. rewrite Htext.
  split; [now intros ->|].
  intros u ->. eauto.
Qed.

(** C5. The text U+00A0 followed by [http://localhost:8001/about]: trimmed,
    it is a URL, and [src/index.js], which trims, sends the request to its
    host; [src/vercel-proxy.ts] does not trim, the constructor throws on
    the text, and the request goes to the rule-based fallback. *)
Theorem untrimmed_text_goes_to_fallback :
  let text := (Examples.nbsp ++ "http://localhost:8001/about")%string in
  let routes := parseNginxConfig Examples.readProxyConf "nginclaude-proxy.conf" in
  let req := Examples.get "/about" in
  newURL_http (trim text)
  = Some {| protocol := "http:"; host := "localhost:8001";
            pathname := "/about"; search := "" |}
  /\ newURL_http text = None
  /\ llmRoutingMiddleware (Examples.answering text []) routes req
     = [GenerateText (inferenceOptions routes req);
        RuleBasedFallback;
        FallbackTarget "http://localhost:8002" "/about";
        Proxy "http://localhost:8002" "/about"]
  /\ IndexJs.llmRoutingMiddleware (Examples.answeringIndexJs text) req
     = [IndexJs.MessagesCreate (IndexJs.buildPrompt req);
        IndexJs.InferenceTarget "http://localhost:8001" "/about";
        IndexJs.Proxy "http://localhost:8001" "/about"].
Proof.
  cbv zeta. repeat split; vm_compute; reflexivity.
Qed.

(** ** The loader on the configuration of the repository *)

Lemma matchLocation_group1 (s group1 group2 rest : string) :
  matchLocation s = Some (group1, group2, rest) -> group1 <> "".
Proof.
  unfold matchLocation.
  destruct (stripPrefix "location" s) as [s1|]; [|discriminate].
  destruct (takeWhile isSpace s1); [discriminate|].
  destruct (takeWhile isPathChar (dropWhile isSpace s1)) as [|c g];
    [discriminate|].
  destruct (dropWhile isSpace _) as [|b s3]; [discriminate|].
  destruct (Ascii.eqb_spec b "{") as [->|Hb].
  - destruct (matchBlock s3) as [[g2 r]|]; [|discriminate].
    intros [= <- _ _]. discriminate.
  - destruct b as [[] [] [] [] [] [] [] []]; try discriminate.
    now contradiction Hb.
Qed.

Lemma execLocations_paths (configContent : string) (skip : nat) :
  Forall (fun r => path r <> "") (execLocations skip configContent).
Proof.
  revert skip.
  induction configContent as [|c rest IH]; intros skip; simpl; [constructor|].
  destruct skip as [|k]; [|apply IH].
  destruct (matchLocation (String c rest)) as [[[g1 g2] after]|] eqn:E;
    [|apply IH].
  constructor; [|apply IH].
  simpl. exact (matchLocation_group1 _ _ _ _ E).
Qed.

(** The rules of a loaded table have a path. *)
Lemma parseNginxConfig_paths (readFileSync : string -> option string)
  (configPath : string) :
  Forall (fun r => path r <> "") (parseNginxConfig readFileSync configPath).
Proof.
  unfold parseNginxConfig.
  destruct (readFileSync configPath) as [c|]; [|constructor].
  apply Forall_forall. intros r Hr.
  apply (Permutation_in _ (Permutation_sym (arraySort_perm compareRoutes _))) in Hr.
  pose proof (execLocations_paths c 0) as H.
  rewrite Forall_forall in H. now apply H.
Qed.

Example proxyConf_loaded :
  parseNginxConfig Examples.readProxyConf "nginclaude-proxy.conf"
  = [mkRoute "/static" "http://localhost:8004";
     mkRoute "/admin" "http://localhost:8003";
     mkRoute "/api" "http://localhost:8001";
     mkRoute "/" "http://localhost:8002"].
Proof. vm_compute. reflexivity. Qed.

(** The requests of the specification, with the inference service
    failing. *)
Example fallback_of_known_requests :
  let routes := parseNginxConfig Examples.readProxyConf "nginclaude-proxy.conf" in
  let decision u :=
    finalDecision (llmRoutingMiddleware Examples.failing routes (Examples.get u)) in
  decision "/api/users" = Some (RouteTo "http://localhost:8001" "/api/users")
  /\ decision "/about" = Some (RouteTo "http://localhost:8002" "/about")
  /\ decision "/static/app.css"
     = Some (RouteTo "http://localhost:8004" "/static/app.css")
  /\ decision "/admin2" = Some (RouteTo "http://localhost:8003" "/admin2").
Proof. cbv zeta. repeat split; vm_compute; reflexivity. Qed.

Example fallback_without_root_rule :
  let routes := sortRoutes [mkRoute "/api" "http://localhost:8001";
                            mkRoute "/admin" "http://localhost:8003";
                            mkRoute "/static" "http://localhost:8004"] in
  finalDecision
    (llmRoutingMiddleware Examples.failing routes (Examples.get "/unknown"))
  = Some NoMatchingRoute.
Proof. vm_compute. reflexivity. Qed.

(** The rules written into [src/index.js] decide as the rules loaded from
    the configuration of the repository. *)
Lemma IndexJs_fallbackTarget_is_table (u : string) :
  findFallbackTarget
    (parseNginxConfig Examples.readProxyConf "nginclaude-proxy.conf") u
  = Some (IndexJs.fallbackTarget u)
  \/ (startsWith u "/" = false
      /\ startsWith u "/api" = false /\ startsWith u "/admin" = false
      /\ startsWith u "/static" = false).
Proof.
  rewrite proxyConf_loaded. unfold IndexJs.fallbackTarget. simpl.
  destruct (startsWith u "/static") eqn:Es;
    destruct (startsWith u "/admin") eqn:Ea;
    destruct (startsWith u "/api") eqn:Ei;
    destruct (startsWith u "/") eqn:Er; auto;
    exfalso;
    repeat match goal with
           | H : startsWith _ _ = true |- _ =>
               apply startsWith_iff in H; destruct H as [? H]
           end; subst; simpl in *; discriminate.
Qed.

(** * Part III: further properties of the code *)

(** ** Strings, once more *)

Lemma allChars_takeWhile (p : ascii -> bool) (a b : string) :
  allChars p a = true -> takeWhile p b = "" ->
  takeWhile p (a ++ b) = a /\ dropWhile p (a ++ b) = b.
Proof.
  intros Ha Hb. induction a as [|c a IH]; simpl in *.
  - split; [exact Hb|]. destruct b as [|d b]; [reflexivity|].
    simpl in *. destruct (p d); [discriminate|reflexivity].
  - apply andb_prop in Ha as [Hc Ha]. rewrite Hc.
    destruct (IH Ha) as [-> ->]. auto.
Qed.

Lemma stripPrefix_app (lit rest : string) :
  stripPrefix lit (lit ++ rest) = Some rest.
Proof.
  induction lit as [|c lit IH]; simpl; [reflexivity|].
  now rewrite Ascii.eqb_refl.
Qed.

Lemma stripPrefix_cut (lit a b : string) (c : ascii) (r : string) :
  allChars (fun x => negb (Ascii.eqb x c)) lit = true ->
  stripPrefix lit (a ++ String c b) = Some r ->
  exists r', stripPrefix lit a = Some r'.
Proof.
  revert a. induction lit as [|x lit IH]; intros a Hlit H.
  - simpl. eauto.
  - simpl in Hlit. apply andb_prop in Hlit as [Hx Hlit].
    destruct a as [|y a]; simpl in *.
    + destruct (Ascii.eqb x c); discriminate.
    + destruct (Ascii.eqb x y); [|discriminate]. now apply IH.
Qed.

Lemma occurs_cons (lit : string) (c : ascii) (s : string) :
  occurs lit (String c s) = false ->
  stripPrefix lit (String c s) = None /\ occurs lit s = false.
Proof.
  intros H.
  assert (E : occurs lit (String c s)
              = match stripPrefix lit (String c s) with
                | Some _ => true
                | None => occurs lit s
                end) by reflexivity.
  rewrite E in H.
  destruct (stripPrefix lit (String c s)); [discriminate|auto].
Qed.

Lemma matchBlock_target (T rest : string) :
  allChars isTargetChar T = true ->
  occurs "proxy_pass" T = false ->
  matchBlock (T ++ ";" ++ newline ++ "}" ++ rest) = None.
Proof.
  induction T as [|c T IH]; intros Hc Ho.
  - reflexivity.
  - simpl in Hc. apply andb_prop in Hc as [Hc HT].
    apply occurs_cons in Ho as [Hs Ho].
    change (matchBlock (String c (T ++ ";" ++ newline ++ "}" ++ rest)) = None).
    cbn [matchBlock]. rewrite (IH HT Ho).
    assert (Hb : Ascii.eqb c "}" = false).
    { unfold isTargetChar in Hc. destruct (Ascii.eqb c "}"); [|reflexivity].
      now rewrite andb_false_r in Hc. }
    rewrite Hb. unfold matchProxyPass.
    destruct (stripPrefix "proxy_pass" (String c (T ++ ";" ++ newline ++ "}" ++ rest))) as [r|] eqn:E;
      [|reflexivity].
    change (String c (T ++ ";" ++ newline ++ "}" ++ rest))
      with (String c T ++ String ";" (newline ++ "}" ++ rest))%string in E.
    apply stripPrefix_cut in E as [r' E]; [congruence|reflexivity].
Qed.

Lemma isTargetChar_inv (c : ascii) :
  isTargetChar c = true ->
  isSpace c = false /\ notSemicolon c = true /\ Ascii.eqb c "}" = false.
Proof.
  unfold isTargetChar.
  destruct (isSpace c), (notSemicolon c), (Ascii.eqb c "}"); simpl;
    try discriminate; auto.
Qed.

Lemma allChars_impl (p q : ascii -> bool) (s : string) :
  (forall c, p c = true -> q c = true) ->
  allChars p s = true -> allChars q s = true.
Proof.
  intros H. induction s as [|c s IH]; simpl; [reflexivity|].
  intros Hs. apply andb_prop in Hs as [Hc Hs].
  now rewrite (H c Hc), IH.
Qed.

Lemma matchProxyPassArgument_target (T rest : string) :
  T <> "" -> allChars isTargetChar T = true ->
  matchProxyPassArgument (" " ++ T ++ ";" ++ rest) = Some (T, rest).
Proof.
  intros Hne HT.
  assert (Hsemi : allChars notSemicolon T = true).
  { apply (allChars_impl isTargetChar); [|exact HT].
    intros c Hc. now apply isTargetChar_inv in Hc. }
  destruct T as [|c T]; [contradiction|].
  simpl in HT. apply andb_prop in HT as [Hc HT].
  apply isTargetChar_inv in Hc as (Hsp & _ & _).
  destruct (allChars_takeWhile notSemicolon (String c T) (";" ++ rest) Hsemi eq_refl)
    as [Htake Hdrop].
  unfold matchProxyPassArgument.
  change (" " ++ String c T ++ ";" ++ rest)%string
    with (String " " (String c T ++ ";" ++ rest)).
  cbn [takeWhile dropWhile]. 
  replace (isSpace " ") with true by reflexivity.
  change ((String c T ++ ";" ++ rest)%string) with (String c (T ++ ";" ++ rest)) at 1 2.
  cbn [takeWhile dropWhile]. rewrite Hsp.
  change (String c (T ++ ";" ++ rest)) with (String c T ++ ";" ++ rest)%string.
  rewrite Htake, Hdrop. reflexivity.
Qed.

Lemma matchBlock_body (T rest : string) :
  T <> "" -> allChars isTargetChar T = true ->
  occurs "proxy_pass" T = false ->
  matchBlock (newline ++ "    proxy_pass " ++ T ++ ";" ++ newline ++ "}" ++ rest)
  = Some (T, (newline ++ "}" ++ rest)%string).
Proof.
  intros Hne HT Ho.
  pose proof (matchBlock_target T rest HT Ho) as HN.
  pose proof (matchProxyPassArgument_target T (newline ++ "}" ++ rest) Hne HT) as HA.
  cbn -[matchProxyPassArgument] in *.
  rewrite HN. cbn -[matchProxyPassArgument]. rewrite HA. reflexivity.
Qed.

Lemma dropWhileEnd_none (p : ascii -> bool) (s : string) :
  allChars (fun c => negb (p c)) s = true -> dropWhileEnd p s = s.
Proof.
  induction s as [|c s IH]; simpl; [reflexivity|].
  intros H. apply andb_prop in H as [Hc Hs]. rewrite (IH Hs).
  destruct s; [|reflexivity].
  destruct (p c); [discriminate|reflexivity].
Qed.

Lemma trim_plain (s : string) :
  allChars (fun c => negb (isSpace c)) s = true -> trim s = s.
Proof.
  intros H. unfold trim.
  assert (Hd : dropWhile isSpace s = s).
  { destruct s as [|c s]; [reflexivity|]. simpl in *.
    apply andb_prop in H as [Hc _]. destruct (isSpace c); [discriminate|reflexivity]. }
  rewrite Hd. now apply dropWhileEnd_none.
Qed.

Lemma execLocations_skip (a b : string) :
  execLocations (String.length a) (a ++ b) = execLocations 0 b.
Proof. induction a as [|c a IH]; simpl; [reflexivity|exact IH]. Qed.

Lemma matchLocation_block (P T tail : string) :
  P <> "" -> allChars isPathChar P = true ->
  T <> "" -> allChars isTargetChar T = true ->
  occurs "proxy_pass" T = false ->
  matchLocation ("location " ++ P ++ " {" ++ newline ++ "    proxy_pass " ++ T
                 ++ ";" ++ newline ++ "}" ++ tail)
  = Some (P, T, (newline ++ "}" ++ tail)%string).
Proof.
  intros HP HPc HT HTc Ho.
  pose proof (matchBlock_body T tail HT HTc Ho) as HB.
  set (body := (newline ++ "    proxy_pass " ++ T ++ ";" ++ newline ++ "}" ++ tail)%string) in *.
  assert (Hsp : takeWhile isSpace (P ++ " {" ++ body) = ""
                /\ dropWhile isSpace (P ++ " {" ++ body) = (P ++ " {" ++ body)%string).
  { destruct P as [|c P]; [contradiction|]. simpl in HPc.
    apply andb_prop in HPc as [Hc _]. unfold isPathChar in Hc.
    simpl. destruct (isSpace c); [discriminate|auto]. }
  destruct Hsp as [Hsp1 Hsp2].
  destruct (allChars_takeWhile isPathChar P (" {" ++ body) HPc eq_refl)
    as [Htake Hdrop].
  unfold matchLocation.
  change ("location " ++ P ++ " {" ++ body)%string
    with ("location" ++ String " " (P ++ " {" ++ body))%string.
  rewrite stripPrefix_app.
  change (takeWhile isSpace (String " " (P ++ " {" ++ body)))
    with (String " " (takeWhile isSpace (P ++ " {" ++ body))).
  change (dropWhile isSpace (String " " (P ++ " {" ++ body)))
    with (dropWhile isSpace (P ++ " {" ++ body)).
  rewrite Hsp2, Htake, Hdrop.
  destruct P as [|c P]; [contradiction|].
  change (dropWhile isSpace (" {" ++ body)) with (String "{" body).
  cbv beta iota.
  rewrite HB. reflexivity.
Qed.

Lemma append_assoc (a b c : string) : ((a ++ b) ++ c = a ++ (b ++ c))%string.
Proof. induction a as [|x a IH]; simpl; [reflexivity|now rewrite IH]. Qed.

Lemma length_app (a b : string) :
  String.length (a ++ b) = String.length a + String.length b.
Proof. induction a as [|x a IH]; simpl; [reflexivity|now rewrite IH]. Qed.

Lemma execLocations_match (c : ascii) (rest g1 g2 after : string) :
  matchLocation (String c rest) = Some (g1, g2, after) ->
  execLocations 0 (String c rest)
  = {| path := g1; target := trim g2 |}
      :: execLocations (String.length rest - String.length after) rest.
Proof. intros H. cbn [execLocations]. now rewrite H. Qed.

Lemma execLocations_nomatch (c : ascii) (rest : string) :
  matchLocation (String c rest) = None ->
  execLocations 0 (String c rest) = execLocations 0 rest.
Proof. intros H. cbn [execLocations]. now rewrite H. Qed.

Lemma locationBlock_app (P T tail : string) :
  (locationBlock (mkRoute P T) ++ tail)%string
  = String "l" (("ocation " ++ P ++ " {" ++ newline ++ "    proxy_pass " ++ T ++ ";")
                ++ newline ++ "}" ++ newline ++ tail).
Proof.
  unfold locationBlock. cbn [path target].
  repeat rewrite append_assoc. reflexivity.
Qed.

Lemma execLocations_block (r : RouteConfig) (tail : string) :
  plainRule r = true ->
  execLocations 0 (locationBlock r ++ tail) = r :: execLocations 0 tail.
Proof.
  unfold plainRule. intros H.
  repeat (apply andb_prop in H as [H ?]).
  destruct r as [P T]. cbn [path target] in *.
  rewrite negb_true_iff in *.
  assert (HP : P <> "") by (intros ->; discriminate).
  assert (HT : T <> "") by (intros ->; discriminate).
  assert (Hplain : allChars (fun c => negb (isSpace c)) T = true).
  { apply (allChars_impl isTargetChar); [|assumption].
    intros c Hc. apply isTargetChar_inv in Hc as (-> & _). reflexivity. }
  pose proof (matchLocation_block P T (newline ++ tail) HP) as HM.
  specialize (HM ltac:(assumption) HT ltac:(assumption) ltac:(assumption)).
  rewrite locationBlock_app.
  rewrite (execLocations_match _ _ P T (newline ++ "}" ++ newline ++ tail)).
  - rewrite (trim_plain T Hplain).
    rewrite length_app, Nat.add_sub, execLocations_skip.
    f_equal.
  - rewrite <- HM. f_equal.
    repeat rewrite append_assoc. reflexivity.
Qed.

(** ** The loader on a configuration of plain blocks *)

Lemma execLocations_blocks (rules : list RouteConfig) :
  Forall (fun r => plainRule r = true) rules ->
  execLocations 0 (locationBlocks rules) = rules.
Proof.
  induction 1 as [|r rules Hr _ IH]; [reflexivity|].
  cbn [locationBlocks fold_right]. fold (locationBlocks rules).
  now rewrite (execLocations_block r _ Hr), IH.
Qed.

(** X1. A configuration file made of location blocks, one per rule, is
    loaded as the table of these rules, sorted: no rule is lost, added or
    changed, when the paths and the targets are plain (no white space, no
    brace or semicolon that would end the statement, no [proxy_pass]
    inside a target, nothing empty). *)
Theorem parseNginxConfig_of_blocks
  (readFileSync : string -> option string) (configPath : string)
  (rules : list RouteConfig) :
  Forall (fun r => plainRule r = true) rules ->
  readFileSync configPath = Some (locationBlocks rules) ->
  parseNginxConfig readFileSync configPath = sortRoutes rules.
Proof.
  intros Hplain Hread. unfold parseNginxConfig.
  now rewrite Hread, (execLocations_blocks rules Hplain).
Qed.

Lemma parseNginxConfig_of_blocks_witness :
  let rules := [mkRoute "/api" "http://localhost:8001";
                mkRoute "/" "http://localhost:8002";
                mkRoute "/static" "http://localhost:8004"] in
  parseNginxConfig (fun _ => Some (locationBlocks rules)) "nginclaude-proxy.conf"
  = [mkRoute "/static" "http://localhost:8004";
     mkRoute "/api" "http://localhost:8001";
     mkRoute "/" "http://localhost:8002"].
Proof.
  intros rules.
  rewrite (parseNginxConfig_of_blocks _ "nginclaude-proxy.conf" rules).
  - reflexivity.
  - repeat constructor.
  - reflexivity.
Defined.

(** ** What the loader extracts *)

Lemma allChars_takeWhile_self (p : ascii -> bool) (s : string) :
  allChars p (takeWhile p s) = true.
Proof.
  induction s as [|c s IH]; simpl; [reflexivity|].
  destruct (p c) eqn:E; simpl; [now rewrite E|reflexivity].
Qed.

Lemma allChars_dropWhile (p q : ascii -> bool) (s : string) :
  allChars p s = true -> allChars p (dropWhile q s) = true.
Proof.
  induction s as [|c s IH]; simpl; [reflexivity|].
  intros H. destruct (q c); [|exact H].
  apply andb_prop in H as [_ H]. now apply IH.
Qed.

Lemma allChars_dropWhileEnd (p q : ascii -> bool) (s : string) :
  allChars p s = true -> allChars p (dropWhileEnd q s) = true.
Proof.
  induction s as [|c s IH]; simpl; [reflexivity|].
  intros H. apply andb_prop in H as [Hc H]. specialize (IH H).
  destruct (dropWhileEnd q s) as [|d kept].
  - destruct (q c); simpl; [reflexivity|now rewrite Hc].
  - simpl in *. now rewrite Hc.
Qed.

Lemma allChars_lastChar (p : ascii -> bool) (s : string) :
  allChars p s = true -> allChars p (lastChar s) = true.
Proof.
  induction s as [|c s IH]; [reflexivity|].
  intros H. simpl in H. apply andb_prop in H as [Hc H].
  destruct s as [|d s]; [simpl; now rewrite Hc|].
  change (lastChar (String c (String d s))) with (lastChar (String d s)).
  now apply IH.
Qed.

Lemma lastChar_nonempty (s : string) : s <> "" -> lastChar s <> "".
Proof.
  induction s as [|c s IH]; [contradiction|]. intros _.
  destruct s as [|d s]; [discriminate|].
  change (lastChar (String c (String d s))) with (lastChar (String d s)).
  apply IH. discriminate.
Qed.

Lemma isSpace_notSemicolon (c : ascii) : isSpace c = true -> notSemicolon c = true.
Proof.
  unfold notSemicolon. destruct (Ascii.eqb_spec c ";") as [->|]; [|reflexivity].
  discriminate.
Qed.

Lemma dropWhileEnd_idempotent (p : ascii -> bool) (s : string) :
  dropWhileEnd p (dropWhileEnd p s) = dropWhileEnd p s.
Proof.
  induction s as [|c s IH]; [reflexivity|].
  cbn [dropWhileEnd].
  destruct (dropWhileEnd p s) as [|d kept] eqn:E.
  - destruct (p c) eqn:Ec; [reflexivity|]. simpl. now rewrite Ec.
  - cbn [dropWhileEnd]. cbn [dropWhileEnd] in IH. now rewrite IH.
Qed.

Lemma dropWhile_dropWhileEnd (p : ascii -> bool) (s : string) :
  dropWhile p s = s -> dropWhile p (dropWhileEnd p s) = dropWhileEnd p s.
Proof.
  destruct s as [|c s]; [reflexivity|].
  cbn [dropWhile]. destruct (p c) eqn:Ec.
  - intros H. exfalso.
    assert (Hlen : forall t, String.length (dropWhile p t) <= String.length t).
    { induction t as [|d t IHt]; simpl; [lia|]. destruct (p d); simpl; lia. }
    specialize (Hlen s). rewrite H in Hlen. simpl in Hlen. lia.
  - intros _. cbn [dropWhileEnd].
    destruct (dropWhileEnd p s); rewrite ?Ec; simpl; now rewrite Ec.
Qed.

Lemma dropWhile_idempotent (p : ascii -> bool) (s : string) :
  dropWhile p (dropWhile p s) = dropWhile p s.
Proof.
  induction s as [|c s IH]; [reflexivity|].
  simpl. destruct (p c) eqn:Ec; [exact IH|]. simpl. now rewrite Ec.
Qed.

(** Trimming a trimmed text changes nothing. *)
Lemma trim_idempotent (s : string) : trim (trim s) = trim s.
Proof.
  unfold trim.
  rewrite (dropWhile_dropWhileEnd isSpace (dropWhile isSpace s))
    by apply dropWhile_idempotent.
  apply dropWhileEnd_idempotent.
Qed.

Lemma matchProxyPassArgument_group (s group2 rest : string) :
  matchProxyPassArgument s = Some (group2, rest) ->
  group2 <> "" /\ allChars notSemicolon group2 = true.
Proof.
  unfold matchProxyPassArgument.
  destruct (takeWhile isSpace s) as [|c spaces] eqn:Esp; [discriminate|].
  destruct (dropWhile notSemicolon (dropWhile isSpace s)); [discriminate|].
  destruct (takeWhile notSemicolon (dropWhile isSpace s)) as [|d arg] eqn:Earg.
  - destruct (2 <=? String.length (String c spaces))%nat; [|discriminate].
    intros [= <- _]. split.
    + apply (lastChar_nonempty (String c spaces)). discriminate.
    + apply (allChars_impl isSpace); [apply isSpace_notSemicolon|].
      apply (allChars_lastChar isSpace (String c spaces)).
      rewrite <- Esp. apply allChars_takeWhile_self.
  - intros [= <- _]. split; [discriminate|].
    rewrite <- Earg. apply allChars_takeWhile_self.
Qed.

Lemma matchBlock_group (s group2 rest : string) :
  matchBlock s = Some (group2, rest) ->
  group2 <> "" /\ allChars notSemicolon group2 = true.
Proof.
  induction s as [|c s IH]; [discriminate|].
  cbn [matchBlock].
  destruct (if Ascii.eqb c "}" then None else matchBlock s) as [m|] eqn:E.
  - intros [= ->]. destruct (Ascii.eqb c "}"); [discriminate|]. now apply IH.
  - unfold matchProxyPass.
    destruct (stripPrefix "proxy_pass" (String c s)); [|discriminate].
    apply matchProxyPassArgument_group.
Qed.

Lemma matchLocation_groups (s group1 group2 rest : string) :
  matchLocation s = Some (group1, group2, rest) ->
  group1 <> "" /\ allChars isPathChar group1 = true
  /\ group2 <> "" /\ allChars notSemicolon group2 = true.
Proof.
  unfold matchLocation.
  destruct (stripPrefix "location" s) as [s1|]; [|discriminate].
  destruct (takeWhile isSpace s1); [discriminate|].
  destruct (takeWhile isPathChar (dropWhile isSpace s1)) as [|c g] eqn:Eg;
    [discriminate|].
  destruct (dropWhile isSpace (dropWhile isPathChar (dropWhile isSpace s1)))
    as [|b s3]; [discriminate|].
  destruct (Ascii.eqb_spec b "{") as [->|Hb].
  - destruct (matchBlock s3) as [[g2 r]|] eqn:Eb; [|discriminate].
    pose proof (allChars_takeWhile_self isPathChar (dropWhile isSpace s1)) as Hg.
    rewrite Eg in Hg.
    intros H. inversion H; subst. split; [discriminate|]. split.
    + exact Hg.
    + exact (matchBlock_group _ _ _ Eb).
  - destruct b as [[] [] [] [] [] [] [] []]; try discriminate.
    now contradiction Hb.
Qed.

Lemma execLocations_extracted (configContent : string) (skip : nat) :
  Forall extractedRule (execLocations skip configContent).
Proof.
  revert skip.
  induction configContent as [|c rest IH]; intros skip; simpl; [constructor|].
  destruct skip as [|k]; [|apply IH].
  destruct (matchLocation (String c rest)) as [[[g1 g2] after]|] eqn:E;
    [|apply IH].
  constructor; [|apply IH].
  destruct (matchLocation_groups _ _ _ _ E) as (H1 & H2 & _ & H4).
  unfold extractedRule. cbn [path target]. repeat split; auto.
  - apply trim_idempotent.
  - unfold trim. now apply allChars_dropWhileEnd, allChars_dropWhile.
Qed.

(** X2. Every rule of a loaded table has a path that is not empty and
    holds no white space and no opening brace, and a target that holds no
    semicolon and neither starts nor ends with white space (trimming it
    changes nothing). *)
Theorem parseNginxConfig_extracts_clean_rules
  (readFileSync : string -> option string) (configPath : string) :
  Forall (fun r =>
            path r <> "" /\ allChars isPathChar (path r) = true
            /\ trim (target r) = target r
            /\ allChars notSemicolon (target r) = true)
         (parseNginxConfig readFileSync configPath).
Proof.
  unfold parseNginxConfig.
  destruct (readFileSync configPath) as [c|]; [|constructor].
  apply Forall_forall. intros r Hr.
  apply (Permutation_in _ (Permutation_sym (arraySort_perm compareRoutes _))) in Hr.
  pose proof (execLocations_extracted c 0) as H.
  rewrite Forall_forall in H. exact (H r Hr).
Qed.

(** ** A configuration without rules *)

Lemma occurs_here (lit s r : string) :
  stripPrefix lit s = Some r -> occurs lit s = true.
Proof. intros H. destruct s; simpl in *; now rewrite H. Qed.

Lemma occurs_later (lit s : string) (c : ascii) :
  occurs lit s = true -> occurs lit (String c s) = true.
Proof.
  intros H. cbn [occurs]. rewrite H.
  now destruct (stripPrefix lit (String c s)).
Qed.

Lemma occurs_dropWhile (lit : string) (p : ascii -> bool) (s : string) :
  occurs lit (dropWhile p s) = true -> occurs lit s = true.
Proof.
  induction s as [|c s IH]; [auto|].
  cbn [dropWhile]. destruct (p c); [|auto].
  intros H. now apply occurs_later, IH.
Qed.

Lemma occurs_after (lit l t s1 : string) :
  stripPrefix l t = Some s1 -> occurs lit s1 = true -> occurs lit t = true.
Proof.
  revert t. induction l as [|a l IH]; intros t; simpl.
  - now intros [= ->].
  - destruct t as [|b t]; [discriminate|].
    destruct (Ascii.eqb a b); [|discriminate].
    intros H Ho. apply occurs_later. now apply (IH t).
Qed.

Lemma dropWhile_head (p : ascii -> bool) (s rest : string) (c : ascii) :
  dropWhile p s = String c rest -> p c = false.
Proof.
  induction s as [|d s IH]; simpl; [discriminate|].
  destruct (p d) eqn:E; [exact IH|]. now intros [= <- _].
Qed.

Lemma matchProxyPassArgument_occurs (s group2 rest : string) :
  matchProxyPassArgument s = Some (group2, rest) -> occurs ";" s = true.
Proof.
  unfold matchProxyPassArgument.
  destruct (takeWhile isSpace s); [discriminate|].
  destruct (dropWhile notSemicolon (dropWhile isSpace s)) as [|c r] eqn:E;
    [discriminate|].
  intros _. apply (occurs_dropWhile _ isSpace), (occurs_dropWhile _ notSemicolon).
  rewrite E. apply dropWhile_head in E. unfold notSemicolon in E.
  destruct (Ascii.eqb_spec c ";") as [->|]; [reflexivity|discriminate].
Qed.

Lemma matchBlock_occurs (s group2 rest : string) :
  matchBlock s = Some (group2, rest) ->
  occurs "proxy_pass" s = true /\ occurs ";" s = true.
Proof.
  induction s as [|c s IH]; [discriminate|].
  cbn [matchBlock].
  destruct (if Ascii.eqb c "}" then None else matchBlock s) as [m|] eqn:E.
  - intros [= ->]. destruct (Ascii.eqb c "}"); [discriminate|].
    destruct (IH E). split; now apply occurs_later.
  - unfold matchProxyPass.
    destruct (stripPrefix "proxy_pass" (String c s)) as [s1|] eqn:Es;
      [|discriminate].
    intros H. split; [exact (occurs_here _ _ _ Es)|].
    apply (occurs_after _ _ _ _ Es).
    exact (matchProxyPassArgument_occurs _ _ _ H).
Qed.

Lemma matchLocation_occurs (s group1 group2 rest : string) :
  matchLocation s = Some (group1, group2, rest) ->
  occurs "location" s = true /\ occurs "{" s = true
  /\ occurs "proxy_pass" s = true /\ occurs ";" s = true.
Proof.
  unfold matchLocation.
  destruct (stripPrefix "location" s) as [s1|] eqn:Es; [|discriminate].
  destruct (takeWhile isSpace s1); [discriminate|].
  destruct (takeWhile isPathChar (dropWhile isSpace s1)); [discriminate|].
  destruct (dropWhile isSpace (dropWhile isPathChar (dropWhile isSpace s1)))
    as [|b s3] eqn:Ed; [discriminate|].
  destruct (Ascii.eqb_spec b "{") as [->|Hb].
  - destruct (matchBlock s3) as [[g2 r]|] eqn:Eb; [|discriminate].
    intros _. destruct (matchBlock_occurs _ _ _ Eb) as [Hp Hsemi].
    assert (Hin : forall lit, occurs lit (String "{" s3) = true ->
                              occurs lit s = true).
    { intros lit H. apply (occurs_after _ _ _ _ Es).
      apply (occurs_dropWhile _ isSpace), (occurs_dropWhile _ isPathChar),
            (occurs_dropWhile _ isSpace).
      now rewrite Ed. }
    repeat split.
    + exact (occurs_here _ _ _ Es).
    + apply Hin. reflexivity.
    + now apply Hin, occurs_later.
    + now apply Hin, occurs_later.
  - destruct b as [[] [] [] [] [] [] [] []]; try discriminate.
    now contradiction Hb.
Qed.

Lemma execLocations_occurs (configContent : string) (skip : nat) :
  execLocations skip configContent <> [] ->
  occurs "location" configContent = true /\ occurs "{" configContent = true
  /\ occurs "proxy_pass" configContent = true /\ occurs ";" configContent = true.
Proof.
  revert skip.
  induction configContent as [|c rest IH]; intros skip; [now intros []|].
  cbn [execLocations].
  assert (Hrest : forall k, execLocations k rest <> [] ->
            occurs "location" (String c rest) = true
            /\ occurs "{" (String c rest) = true
            /\ occurs "proxy_pass" (String c rest) = true
            /\ occurs ";" (String c rest) = true).
  { intros k Hk. destruct (IH k Hk) as (H1 & H2 & H3 & H4).
    repeat split; now apply occurs_later. }
  destruct skip as [|k]; [|apply Hrest].
  destruct (matchLocation (String c rest)) as [[[g1 g2] after]|] eqn:E;
    [|apply Hrest].
  intros _. exact (matchLocation_occurs _ _ _ _ E).
Qed.

(** X3. A configuration in which the word [location], an opening brace,
    the word [proxy_pass] or a semicolon does not occur gives the empty
    table (the empty file is one). *)
Theorem parseNginxConfig_without_rules
  (readFileSync : string -> option string) (configPath configContent : string) :
  readFileSync configPath = Some configContent ->
  occurs "location" configContent && occurs "{" configContent
  && occurs "proxy_pass" configContent && occurs ";" configContent = false ->
  parseNginxConfig readFileSync configPath = [].
Proof.
  intros Hread Hnone. unfold parseNginxConfig. rewrite Hread.
  destruct (execLocations 0 configContent) as [|r rules] eqn:E; [reflexivity|].
  destruct (execLocations_occurs configContent 0) as (H1 & H2 & H3 & H4).
  - rewrite E. discriminate.
  - rewrite H1, H2, H3, H4 in Hnone. discriminate.
Qed.

Lemma parseNginxConfig_without_rules_witness :
  parseNginxConfig
    (fun _ => Some "server { listen 3000; location /api { root /srv; } }")
    "nginclaude-proxy.conf" = [].
Proof.
  apply (parseNginxConfig_without_rules _ _
           "server { listen 3000; location /api { root /srv; } }");
    reflexivity.
Defined.

(** ** When the rule-based fallback finds no route *)

Lemma fallback_of_route (rt : Runtime) (routes : list RouteConfig)
  (url : string) (r : RouteConfig) :
  findRoute routes url = Some r -> target r <> "" ->
  exists rest,
    useRuleBasedFallback rt routes url
    = RuleBasedFallback :: FallbackTarget (target r) url :: rest
    /\ (rest = [Send 500 "Proxy error"]
        \/ rest = [Next]
        \/ rest = [Proxy (target r) url; DefaultProxyError]
        \/ rest = [Proxy (target r) url]).
Proof.
  intros Hfind Hne. unfold useRuleBasedFallback.
  rewrite findFallbackTarget_findRoute, Hfind. simpl.
  destruct (target r) as [|c t]; [contradiction|]. simpl.
  destruct (proxy rt (String c t) url); eauto 6.
Qed.



(** ** The root rule *)

(** X5. With a table loaded from rules that hold a rule for [/], all
    targets being non-empty, every url that starts with [/] gets a
    target from the rule-based fallback (no 404); the target is that of
    a [/] rule exactly when no other rule matches the url, and then it
    is the first configured [/] rule. *)
Theorem root_rule_catches_all (rt : Runtime) (rules : list RouteConfig)
  (url : string) :
  Forall (fun r => target r <> "") rules ->
  (exists r, In r rules /\ path r = "/") ->
  startsWith url "/" = true ->
  exists r0 rest,
    In r0 rules
    /\ startsWith url (path r0) = true
    /\ useRuleBasedFallback rt (sortRoutes rules) url
       = RuleBasedFallback :: FallbackTarget (target r0) url :: rest
    /\ ~ In (Send 404 "No matching route found")
            (useRuleBasedFallback rt (sortRoutes rules) url)
    /\ (path r0 = "/" <->
        forall r, In r rules -> path r <> "/" -> startsWith url (path r) = false)
    /\ exists before after,
         rules = before ++ r0 :: after
         /\ Forall (fun e => path e <> path r0) before.
Proof.
  intros Htargets (root & Hroot & Hpath) Hurl.
  pose proof (findRoute_sortRoutes_spec rules url) as S.
  destruct (findRoute (sortRoutes rules) url) as [r0|] eqn:E.
  - destruct S as (Hr0 & Hm0 & Hmax & Hfirst).
    assert (Hne : target r0 <> "").
    { rewrite Forall_forall in Htargets. now apply Htargets. }
    destruct (fallback_of_route rt (sortRoutes rules) url r0 E Hne)
      as (rest & Hrun & Hrest).
    exists r0, rest. repeat split; auto.
    + rewrite Hrun. intros Hin.
      destruct Hrest as [->|[->|[->| ->]]]; simpl in Hin;
        repeat (destruct Hin as [Hin|Hin]; try discriminate); auto.
    + intros H0 r Hr Hnr.
      destruct (startsWith url (path r)) eqn:Em; [exfalso|reflexivity].
      specialize (Hmax r Hr Em). unfold rank in Hmax.
      rewrite H0 in Hmax. simpl in Hmax.
      destruct (String.eqb_spec (path r) "/"); [contradiction|lia].
    + intros Hothers.
      destruct (String.eqb_spec (path r0) "/") as [|Hn]; [assumption|].
      rewrite (Hothers r0 Hr0 Hn) in Hm0. discriminate.
  - exfalso. pose proof (S root Hroot) as H. rewrite Hpath in H. congruence.
Qed.

Lemma root_rule_catches_all_witness :
  let rules := [mkRoute "/" "http://localhost:8002";
                mkRoute "/api" "http://localhost:8001";
                mkRoute "/" "http://localhost:9002"] in
  exists r0 rest,
    In r0 rules
    /\ startsWith "/about?x=1" (path r0) = true
    /\ useRuleBasedFallback Examples.failing (sortRoutes rules) "/about?x=1"
       = RuleBasedFallback :: FallbackTarget (target r0) "/about?x=1" :: rest
    /\ ~ In (Send 404 "No matching route found")
            (useRuleBasedFallback Examples.failing (sortRoutes rules) "/about?x=1")
    /\ (path r0 = "/" <->
        forall r, In r rules -> path r <> "/" ->
                  startsWith "/about?x=1" (path r) = false)
    /\ exists before after,
         rules = before ++ r0 :: after
         /\ Forall (fun e => path e <> path r0) before.
Proof.
  intros rules.
  apply (root_rule_catches_all Examples.failing rules "/about?x=1").
  - repeat constructor; discriminate.
  - exists (mkRoute "/" "http://localhost:8002"). split; [now left|reflexivity].
  - reflexivity.
Defined.

(** ** A longer url *)

Lemma startsWith_app (url more prefix : string) :
  startsWith url prefix = true -> startsWith (url ++ more) prefix = true.
Proof.
  intros H. apply startsWith_iff in H as [rest ->].
  apply startsWith_iff. exists (rest ++ more)%string.
  now rewrite append_assoc.
Qed.

(** X6. Whatever follows the url (a longer path, a query string), a url
    that the rules route is still routed: on a table without empty
    targets, when the fallback finds a route for a url it finds one for
    every url that starts with it, and the rule it then stops at is the
    same rule or stands before it in the table. *)
Theorem longer_url_still_routed (routes : list RouteConfig)
  (url more : string) (r : RouteConfig) :
  Forall (fun e => target e <> "") routes ->
  findRoute routes url = Some r ->
  falsy (findFallbackTarget routes url) = false
  /\ falsy (findFallbackTarget routes (url ++ more)) = false
  /\ exists r' before after,
       findRoute routes (url ++ more) = Some r'
       /\ routes = before ++ r' :: after
       /\ (r' = r \/ In r after).
Proof.
  intros Htargets Hfind.
  assert (Hfalsy : forall u e, findRoute routes u = Some e ->
                               falsy (findFallbackTarget routes u) = false).
  { intros u e He. rewrite findFallbackTarget_findRoute, He. simpl.
    rewrite Forall_forall in Htargets.
    specialize (Htargets e (findRoute_In _ _ _ He)).
    now destruct (target e). }
  split; [exact (Hfalsy _ _ Hfind)|].
  destruct (findRoute_Some _ _ _ Hfind) as (b & a & Hl & Hm & Hb).
  destruct (findRoute routes (url ++ more)) as [r'|] eqn:E.
  - split; [exact (Hfalsy _ _ E)|].
    destruct (findRoute_Some _ _ _ E) as (b' & a' & Hl' & Hm' & Hb').
    exists r', b', a'. repeat split; auto.
    assert (Hin : In r (b' ++ r' :: a')) by (rewrite <- Hl', Hl; apply in_elt).
    apply in_app_or in Hin as [Hin|[Hin|Hin]]; auto.
    rewrite Forall_forall in Hb'. specialize (Hb' r Hin).
    now rewrite (startsWith_app url more (path r) Hm) in Hb'.
  - exfalso. rewrite findRoute_None in E.
    specialize (E r (findRoute_In _ _ _ Hfind)).
    now rewrite (startsWith_app url more (path r) Hm) in E.
Qed.

Lemma longer_url_still_routed_witness :
  let routes := parseNginxConfig Examples.readProxyConf "nginclaude-proxy.conf" in
  falsy (findFallbackTarget routes "/about") = false
  /\ falsy (findFallbackTarget routes ("/about" ++ "?page=2")) = false
  /\ exists r' before after,
       findRoute routes ("/about" ++ "?page=2") = Some r'
       /\ routes = before ++ r' :: after
       /\ (r' = mkRoute "/" "http://localhost:8002"
           \/ In (mkRoute "/" "http://localhost:8002") after).
Proof.
  intros routes.
  apply (longer_url_still_routed routes "/about" "?page=2").
  - unfold routes. rewrite proxyConf_loaded. repeat constructor; discriminate.
  - unfold routes. rewrite proxyConf_loaded. reflexivity.
Defined.

(** ** The backends that are probed *)

Lemma setAdd_spec (set : list string) (value : string) :
  NoDup set ->
  NoDup (setAdd set value)
  /\ (forall t, In t (setAdd set value) <-> In t set \/ t = value).
Proof.
  intros Hset. unfold setAdd.
  destruct (existsb (String.eqb value) set) eqn:E.
  - split; [exact Hset|]. intros t. split; [auto|].
    intros [H| ->]; [exact H|].
    apply existsb_exists in E as (x & Hx & Heq).
    apply String.eqb_eq in Heq. now subst.
  - split.
    + apply NoDup_app; [exact Hset|repeat constructor; intros []|].
      intros x Hx [Hv|[]]. subst x.
      assert (Hex : existsb (String.eqb value) set = true).
      { apply existsb_exists. exists value.
        split; [exact Hx|apply String.eqb_refl]. }
      congruence.
    + intros t. rewrite in_app_iff. simpl. intuition.
Qed.

Lemma setFrom_spec (values set : list string) :
  NoDup set ->
  NoDup (fold_left setAdd values set)
  /\ (forall t, In t (fold_left setAdd values set) <-> In t set \/ In t values).
Proof.
  revert set. induction values as [|v values IH]; intros set Hset; simpl.
  - split; [exact Hset|]. intuition.
  - destruct (setAdd_spec set v Hset) as [Hnd Hin].
    destruct (IH _ Hnd) as [Hnd' Hin']. split; [exact Hnd'|].
    intros t. rewrite Hin', Hin. intuition.
Qed.

Lemma setFrom_distinct (values set : list string) :
  NoDup (set ++ values) -> fold_left setAdd values set = set ++ values.
Proof.
  revert set. induction values as [|v values IH]; intros set Hnd; simpl.
  - now rewrite app_nil_r.
  - assert (Hv : existsb (String.eqb v) set = false).
    { destruct (existsb (String.eqb v) set) eqn:E; [exfalso|reflexivity].
      apply existsb_exists in E as (x & Hx & Heq).
      apply String.eqb_eq in Heq. subst x.
      apply NoDup_remove_2 in Hnd. apply Hnd, in_or_app. now left. }
    unfold setAdd at 2. rewrite Hv.
    change (v :: values) with ([v] ++ values) in Hnd |- *.
    rewrite app_assoc in Hnd |- *. now apply IH.
Qed.

Lemma backendUrls_spec (routes : list RouteConfig) :
  NoDup (backendUrls routes)
  /\ (forall t, In t (backendUrls routes)
                <-> exists r, In r routes /\ target r = t)
  /\ (NoDup (map target routes) -> backendUrls routes = map target routes).
Proof.
  unfold backendUrls, setFrom.
  destruct (setFrom_spec (map target routes) [] (NoDup_nil _)) as [Hnd Hin].
  repeat split; auto.
  - intros H. apply Hin in H as [[]|H].
    apply in_map_iff in H as (r & Hr & Hin'). eauto.
  - intros (r & Hr & <-). apply Hin. right. now apply in_map.
  - intros H. now apply (setFrom_distinct (map target routes) []).
Qed.

Lemma setAdd_extends (values set : list string) :
  exists rest, fold_left setAdd values set = set ++ rest.
Proof.
  revert set. induction values as [|v values IH]; intros set; simpl.
  - exists []. now rewrite app_nil_r.
  - destruct (IH (setAdd set v)) as [rest ->]. unfold setAdd.
    destruct (existsb (String.eqb v) set); [now exists rest|].
    exists (v :: rest). now rewrite <- app_assoc.
Qed.

(** A target takes its place in [backendUrls] where the table names it
    first. *)
Lemma backendUrls_first (before after : list RouteConfig) (r : RouteConfig) :
  ~ In (target r) (map target before) ->
  exists rest,
    backendUrls (before ++ r :: after)
    = backendUrls before ++ target r :: rest.
Proof.
  intros Hnew. unfold backendUrls, setFrom.
  rewrite map_app, fold_left_app. cbn [map fold_left].
  destruct (setFrom_spec (map target before) [] (NoDup_nil _)) as [_ Hin].
  assert (E : existsb (String.eqb (target r))
                (fold_left setAdd (map target before) []) = false).
  { destruct (existsb _ _) eqn:E; [exfalso|reflexivity].
    apply existsb_exists in E as (x & Hx & Heq).
    apply String.eqb_eq in Heq. subst x.
    apply Hin in Hx as [[]|Hx]. contradiction. }
  unfold setAdd at 2. rewrite E.
  destruct (setAdd_extends (map target after)
              (fold_left setAdd (map target before) [] ++ [target r]))
    as [rest ->].
  exists rest. now rewrite <- app_assoc.
Qed.

(** The loop calls [http.get] for the backends in their order, up to the
    first probe that does not settle. *)
Lemma probeBackends_called (httpGet : string -> ProbeResult)
  (backends : list string) :
  (exists rest, backends = called (fst (probeBackends httpGet backends)) ++ rest)
  /\ ((forall url, In url backends -> httpGet url <> GetPending) ->
      called (fst (probeBackends httpGet backends)) = backends
      /\ snd (probeBackends httpGet backends) = Fulfilled tt)
  /\ (snd (probeBackends httpGet backends) = Pending
      \/ snd (probeBackends httpGet backends) = Fulfilled tt)
  /\ (snd (probeBackends httpGet backends) = Pending ->
      exists url, In url backends /\ httpGet url = GetPending).
Proof.
  induction backends as [|url backends IH]; cbn [probeBackends].
  - repeat split; auto; [now exists []|discriminate].
  - destruct (probeBackends httpGet backends) as [events returned].
    cbn [fst snd] in IH. destruct IH as ((rest & Hrest) & Hall & Hret & Hpend).
    destruct (httpGet url) eqn:E; cbn [fst snd called flat_map app];
      fold (called events);
      (split; [|split; [|split]]);
      try (exists rest; now rewrite Hrest at 1);
      try (intros H; destruct Hall as [-> ->];
           [intros u Hu; apply H; now right|split; reflexivity]);
      try exact Hret;
      try (intros H; destruct (Hpend H) as (u & Hu & Eu); exists u;
           split; [now right|exact Eu]).
    + now exists backends.
    + intros H. exfalso. apply (H url); [now left|exact E].
    + now left.
    + intros _. exists url. split; [now left|exact E].
Qed.

(** A call that throws is caught by the loop, which logs it. *)
Lemma probeBackends_caught (httpGet : string -> ProbeResult)
  (backends : list string) (t : string) :
  In (ErrorChecking t) (fst (probeBackends httpGet backends))
  <-> In t (called (fst (probeBackends httpGet backends)))
      /\ httpGet t = GetThrows.
Proof.
  unfold called.
  induction backends as [|url backends IH]; cbn [probeBackends].
  - simpl. tauto.
  - destruct (probeBackends httpGet backends) as [events returned].
    cbn [fst] in IH.
    destruct (httpGet url) eqn:E; simpl; rewrite ?IH; split; intros H;
      repeat match goal with
             | H : _ \/ _ |- _ => destruct H
             | H : _ /\ _ |- _ => destruct H
             | H : False |- _ => destruct H
             | H : HttpGet _ = ErrorChecking _ |- _ => discriminate H
             | H : ErrorChecking _ = ErrorChecking _ |- _ =>
                 injection H as H; subst
             | H : _ = ErrorChecking _ |- _ => discriminate H
             end; subst; try congruence; auto 6.
Qed.

(** X7. [checkBackends] calls [http.get] for targets of the table only,
    for no target twice however many rules name it, and in the order in
    which the table first names them.  It never throws.  A call that
    throws (a target that is not an [http:] url) makes no request and does
    not stop the loop, no more than an error or a timeout: when every
    probe settles, [http.get] has been called for every target of the
    table and [checkBackends] returns; it stops, without returning, only
    at a probe that never settles. *)
Theorem checkBackends_calls_each_target_once
  (httpGet : string -> ProbeResult) (routes : list RouteConfig) :
  let events := fst (checkBackends httpGet routes) in
  let returned := snd (checkBackends httpGet routes) in
  NoDup (called events)
  /\ (forall t, In t (called events) -> exists r, In r routes /\ target r = t)
  /\ (exists rest, backendUrls routes = called events ++ rest)
  /\ (forall before r after,
        routes = before ++ r :: after ->
        ~ In (target r) (map target before) ->
        exists rest, backendUrls routes = backendUrls before ++ target r :: rest)
  /\ (NoDup (map target routes) ->
      exists rest, map target routes = called events ++ rest)
  /\ (forall t, In t (requested httpGet events) <->
                In t (called events) /\ httpGet t <> GetThrows)
  /\ (forall t, In (ErrorChecking t) events <->
                In t (called events) /\ httpGet t = GetThrows)
  /\ ((forall r, In r routes -> httpGet (target r) <> GetPending) ->
      returned = Fulfilled tt
      /\ forall t, In t (called events) <-> exists r, In r routes /\ target r = t)
  /\ (returned <> Fulfilled tt ->
      returned = Pending
      /\ exists r, In r routes /\ httpGet (target r) = GetPending).
Proof.
  cbv zeta. unfold checkBackends.
  destruct (backendUrls_spec routes) as (Hnd & Hin & Hdistinct).
  destruct (probeBackends_called httpGet (backendUrls routes))
    as ((rest & Hrest) & Hall & Hret & Hpend).
  repeat split.
  - rewrite Hrest in Hnd. now apply NoDup_app_remove_r in Hnd.
  - intros t Ht. apply Hin. rewrite Hrest. apply in_or_app. now left.
  - now exists rest.
  - intros before r after -> Hnew. now apply backendUrls_first.
  - intros H. exists rest. now rewrite <- (Hdistinct H).
  - unfold requested in H. now apply filter_In in H.
  - unfold requested in H. apply filter_In in H as [_ H].
    intros E. now rewrite E in H.
  - intros [Ht Hne]. unfold requested. apply filter_In. split; [exact Ht|].
    destruct (httpGet t); try reflexivity. contradiction.
  - now apply probeBackends_caught in H.
  - now apply probeBackends_caught in H.
  - apply probeBackends_caught.
  - apply Hall. intros url Hurl. apply Hin in Hurl as (r & Hr & <-). auto.
  - destruct Hall as [-> _].
    + intros url Hurl. apply Hin in Hurl as (r & Hr & <-). auto.
    + apply Hin.
  - destruct Hall as [-> _].
    + intros url Hurl. apply Hin in Hurl as (r & Hr & <-). auto.
    + apply Hin.
  - destruct Hret as [Hp|Hf]; [exact Hp|contradiction].
  - destruct Hret as [Hp|Hf]; [|contradiction].
    destruct (Hpend Hp) as (url & Hurl & E).
    apply Hin in Hurl as (r & Hr & <-). eauto.
Qed.

(** ** The prompt *)

Lemma append_nil_r (s : string) : (s ++ "")%string = s.
Proof. induction s as [|c s IH]; simpl; [reflexivity|now rewrite IH]. Qed.

Lemma routingRules_fold (routes : list RouteConfig) (rules : string) :
  fold_left
    (fun rules route =>
       (rules ++ "- If the URL starts with " ++ dquote ++ path route ++ dquote
        ++ ", route to " ++ target route ++ " and maintain the same path"
        ++ newline)%string)
    routes rules
  = (rules ++ fold_right (fun r text => ruleLine r ++ text) "" routes)%string.
Proof.
  revert rules. induction routes as [|r routes IH]; intros rules; simpl.
  - now rewrite append_nil_r.
  - rewrite IH, append_assoc. reflexivity.
Qed.

Lemma ruleLines_app (before after : list RouteConfig) :
  fold_right (fun r text => (ruleLine r ++ text)%string) "" (before ++ after)
  = (fold_right (fun r text => (ruleLine r ++ text)%string) "" before
     ++ fold_right (fun r text => (ruleLine r ++ text)%string) "" after)%string.
Proof.
  induction before as [|r before IH]; [reflexivity|].
  rewrite <- app_comm_cons. cbn [fold_right].
  now rewrite IH, append_assoc.
Qed.

(** X8. The prompt names every rule of the table: for each rule, in the
    order of the table, it holds the line that gives the path of the
    rule, between quotes, and its target; the lines of the rules before
    it come before, those of the rules after it come after, and what
    surrounds the lines does not depend on the table. *)
Theorem prompt_names_every_rule (req : Request) :
  exists head tail,
    forall (routes before after : list RouteConfig) (r : RouteConfig),
      routes = before ++ r :: after ->
      buildPrompt routes req
      = (head
         ++ fold_right (fun e text => ruleLine e ++ text) "" before
         ++ ("- If the URL starts with " ++ dquote ++ path r ++ dquote
             ++ ", route to " ++ target r ++ " and maintain the same path"
             ++ newline)
         ++ fold_right (fun e text => ruleLine e ++ text) "" after
         ++ tail)%string.
Proof.
  exists (newline
  ++ "You are a reverse proxy server similar to nginx. Your job is to analyze this incoming request and determine where it should be routed." ++ newline
  ++ "Based on the routing rules from the nginv-proxy.conf file, you must decide which backend service should handle this request." ++ newline
  ++ newline
  ++ "Request:" ++ newline
  ++ "- Method: " ++ method req ++ newline
  ++ "- URL: " ++ url req ++ newline
  ++ "- Headers: " ++ headers req ++ newline
  ++ "- Body: " ++ body req ++ newline
  ++ newline
  ++ "Routing Rules from nginv-proxy.conf:" ++ newline)%string.
  exists (newline
  ++ newline
  ++ "Your response must be ONLY a single line containing the full target URL. For example:" ++ newline
  ++ "http://localhost:8001/api/users" ++ newline
  ++ newline
  ++ "DO NOT include any explanation or additional text." ++ newline)%string.
  intros routes before after r ->.
  unfold buildPrompt, routingRules.
  rewrite (routingRules_fold (before ++ r :: after) "").
  rewrite ruleLines_app. cbn [fold_right]. unfold ruleLine at 2.
  unfold newline, dquote. cbn [append].
  repeat first
    [ rewrite (append_assoc (method req))
    | rewrite (append_assoc (url req))
    | rewrite (append_assoc (headers req))
    | rewrite (append_assoc (body req))
    | rewrite (append_assoc (path r))
    | rewrite (append_assoc (target r))
    | rewrite (append_assoc (fold_right _ _ before))
    | rewrite (append_assoc (fold_right _ _ after))
    | progress cbn [append] ].
  reflexivity.
Qed.

(** ** The first version of the proxy, [src/index.js] *)

Ltac IndexJs_cases rt req :=
  unfold IndexJs.llmRoutingMiddleware, IndexJs.ruleBasedFallback,
    IndexJs.ultimateFallback; cbv zeta;
  destruct (IndexJs.messagesCreate rt (IndexJs.buildPrompt req))
    as [[|[?|] ?]| |];
  repeat match goal with
         | |- context [match IndexJs.newURL ?r ?t with _ => _ end] =>
             destruct (IndexJs.newURL r t)
         | |- context [match IndexJs.proxy ?r ?t ?p with _ => _ end] =>
             destruct (IndexJs.proxy r t p)
         end.

(** Where an action can stand in a list of actions that is known. *)
Ltac locate H before :=
  destruct before as [|? before]; simpl in H;
  [ first [discriminate H | inversion H; subst; auto 6]
  | first [discriminate H | injection H as _ H; locate H before] ].

(** X9. In [src/index.js] a request is forwarded at most once: after a
    forward nothing is routed again, whatever the upstream does; the only
    code the middleware sends is 500; and when the upstream that the
    answer of the model names fails, the error is logged and the
    middleware sends no response. *)
Theorem IndexJs_forwards_at_most_once (rt : IndexJs.Runtime) (req : Request) :
  let events := IndexJs.llmRoutingMiddleware rt req in
  (length (filter IndexJs_isProxy events) <= 1)%nat
  /\ (forall code text, In (IndexJs.Send code text) events -> code = 500)
  /\ (forall before target path after,
        events = before ++ IndexJs.Proxy target path :: after ->
        after = [] \/ after = [IndexJs.ProxyErrorLogged]
        \/ after = [IndexJs.DefaultProxyError]
        \/ after = [IndexJs.Send 500 "Proxy error"])
  /\ (In IndexJs.ProxyErrorLogged events ->
      forall code text, ~ In (IndexJs.Send code text) events).
Proof.
  cbv zeta. repeat split.
  - IndexJs_cases rt req; simpl; lia.
  - intros code text. IndexJs_cases rt req; simpl; intros H;
      repeat (destruct H as [H|H]; [inversion H; reflexivity|]);
      try (destruct H as [H|H]; discriminate H); try contradiction;
      repeat (destruct H as [H|H]; try discriminate H; try contradiction);
      try (inversion H; reflexivity).
  - intros before target path after.
    IndexJs_cases rt req; intros H; locate H before.
  - IndexJs_cases rt req; simpl; intros H code text H';
      repeat (destruct H as [H|H]; try discriminate H);
      try contradiction;
      repeat (destruct H' as [H'|H']; try discriminate H');
      contradiction.
Qed.

(** ** The rules written into the code and the rules of the file *)

(** X10. The rules written into [src/index.js] and into the simple proxy
    are one chain, and for every url that starts with a slash they choose
    the target that the rule-based matcher chooses with the table loaded
    from the configuration file of the repository.  For a url that does
    not start with a slash the matcher finds no rule, where the chains
    choose the web service. *)
Theorem written_rules_are_the_loaded_table (u : string) :
  let table := parseNginxConfig Examples.readProxyConf "nginclaude-proxy.conf" in
  IndexJs.fallbackTarget u = SimpleProxy.targetUrl u
  /\ (startsWith u "/" = true ->
      findFallbackTarget table u = Some (SimpleProxy.targetUrl u))
  /\ (startsWith u "/" = false ->
      findFallbackTarget table u = None
      /\ SimpleProxy.targetUrl u = "http://localhost:8002").
Proof.
  cbv zeta. split; [reflexivity|].
  destruct (IndexJs_fallbackTarget_is_table u) as [H|(Hr & Hi & Ha & Hs)].
  - split; [intros _; exact H|].
    intros Hr. exfalso. revert H. rewrite proxyConf_loaded. simpl.
    destruct (startsWith u "/static") eqn:Es;
      [apply startsWith_iff in Es as [? ->]; discriminate|].
    destruct (startsWith u "/admin") eqn:Ea;
      [apply startsWith_iff in Ea as [? ->]; discriminate|].
    destruct (startsWith u "/api") eqn:Ei;
      [apply startsWith_iff in Ei as [? ->]; discriminate|].
    rewrite Hr. discriminate.
  - split; [congruence|]. intros _.
    rewrite proxyConf_loaded. unfold SimpleProxy.targetUrl. simpl.
    rewrite Hr, Hi, Ha, Hs. split; reflexivity.
Qed.
